(** * voidring: BaseRocksDB (src/voidring/base_rocksdb.py)

    A shallow embedding of the store wrapper [BaseRocksDB]: the point
    operations [get], [put], [delete], the range/prefix generator [iter]
    with its list form [items], and the cursor pagination [paginate] with
    [_encode_cursor] and [_decode_cursor].

    Python values are modelled as follows.
    - A [str] is the list of its code points ([pystr]); comparison is
      Python's, lexicographic on code points.
    - The store ([rocksdict.Rdict]) is the list of its entries in ascending
      key order.  RocksDB orders keys by their bytes; for the UTF-8 bytes
      of strings this is the order of the code points
      ([Utf8Facts.encode_compare]).  The binding encodes every key and
      every target of a seek before RocksDB sees it, and raises
      [UnicodeEncodeError] for a string with a surrogate.
    - An iterator of the store is the list of the entries ahead of it in
      its direction of travel.
    - An exception is a value of [exn]; a call that may raise returns a
      [result].
    - [str.encode], [bytes.decode] and the URL-safe base64 functions of
      the standard library are written out on numbers ([Utf8], [Base64]). *)

From Stdlib Require Import List NArith ZArith Bool Lia Sorted.
From Stdlib Require String Ascii.
Import ListNotations.

Set Implicit Arguments.
Local Open Scope N_scope.

(** ** Exceptions and results *)

Inductive exn : Type :=
| ValueError
| KeyError
| UnicodeEncodeError
| UnicodeDecodeError
| BinasciiError.

Inductive result (A : Type) : Type :=
| Ok (a : A)
| Raise (e : exn).

Arguments Ok {A} a.
Arguments Raise {A} e.

Definition bind {A B : Type} (r : result A) (k : A -> result B) : result B :=
  match r with
  | Ok a => k a
  | Raise e => Raise e
  end.

Notation "x <- r ;; k" := (bind r (fun x => k))
  (at level 61, r at next level, right associativity).

(** ** Python strings *)

Module PyStr.

(** A [str] is a sequence of code points; the largest code point is
    [max_code_point]. *)
Definition pystr : Type := list N.

Definition max_code_point : N := 1114111.   (* 0x10FFFF = sys.maxunicode *)

(** [chr(n)]: raises [ValueError] outside [range(0x110000)]. *)
Definition chr (n : N) : result pystr :=
  if n <=? max_code_point then Ok [n] else Raise ValueError.

(** Three-way comparison of two strings, code point by code point. *)
Fixpoint compare (a b : pystr) : comparison :=
  match a, b with
  | [], [] => Eq
  | [], _ :: _ => Lt
  | _ :: _, [] => Gt
  | x :: a', y :: b' =>
      match N.compare x y with
      | Eq => compare a' b'
      | Lt => Lt
      | Gt => Gt
      end
  end.

Definition ltb (a b : pystr) : bool :=
  match compare a b with Lt => true | _ => false end.
Definition gtb (a b : pystr) : bool :=
  match compare a b with Gt => true | _ => false end.
Definition geb (a b : pystr) : bool := negb (ltb a b).
Definition leb (a b : pystr) : bool := negb (gtb a b).
Definition eqb (a b : pystr) : bool :=
  match compare a b with Eq => true | _ => false end.

Definition lt (a b : pystr) : Prop := compare a b = Lt.
Definition le (a b : pystr) : Prop := compare a b <> Gt.

(** [s.startswith(p)] *)
Fixpoint startswith (s p : pystr) : bool :=
  match p, s with
  | [], _ => true
  | _ :: _, [] => false
  | y :: p', x :: s' => (x =? y) && startswith s' p'
  end.

(** [s[:-1]] and [s[-1]] of a non-empty string. *)
Definition init (s : pystr) : pystr := removelast s.
Definition last_char (s : pystr) : N := last s 0.

End PyStr.

Import PyStr.

(** ** UTF-8

    [str.encode] and [bytes.decode] (UTF-8, strict).  The store encodes its
    string keys with the first, and [_encode_cursor] and [_decode_cursor]
    go through both.  A byte is a number below 256. *)

Definition bytes : Type := list N.

Module Utf8.

Definition is_surrogate (c : N) : bool := (55296 <=? c) && (c <=? 57343).

Definition is_scalar (c : N) : bool :=
  (c <=? max_code_point) && negb (is_surrogate c).

(** The strings that UTF-8 can encode, which are the strings that the
    store accepts as keys. *)
Definition encodable (s : pystr) : Prop :=
  Forall (fun c => is_scalar c = true) s.

Definition cont (x : N) : N := 128 + x mod 64.

(** The bytes of one code point; a surrogate cannot be encoded. *)
Definition encode_char (c : N) : result bytes :=
  if c <? 128 then Ok [c]
  else if c <? 2048 then Ok [192 + c / 64; cont c]
  else if is_surrogate c then Raise UnicodeEncodeError
  else if c <? 65536 then Ok [224 + c / 4096; cont (c / 64); cont c]
  else if c <=? max_code_point then
    Ok [240 + c / 262144; cont (c / 4096); cont (c / 64); cont c]
  else Raise UnicodeEncodeError.

(** [s.encode()] *)
Fixpoint encode (s : pystr) : result bytes :=
  match s with
  | [] => Ok []
  | c :: s' =>
      b <- encode_char c ;;
      bs <- encode s' ;;
      Ok (b ++ bs)
  end.

Definition is_cont (b : N) : bool := (128 <=? b) && (b <? 192).

(** [b.decode()]: shortest form only, no surrogates, nothing above
    U+10FFFF. *)
Fixpoint decode (b : bytes) : result pystr :=
  match b with
  | [] => Ok []
  | b0 :: r0 =>
      if b0 <? 128 then s <- decode r0 ;; Ok (b0 :: s)
      else if b0 <? 194 then Raise UnicodeDecodeError
      else if b0 <? 224 then
        match r0 with
        | b1 :: r1 =>
            if is_cont b1 then
              s <- decode r1 ;;
              Ok (((b0 - 192) * 64 + (b1 - 128)) :: s)
            else Raise UnicodeDecodeError
        | _ => Raise UnicodeDecodeError
        end
      else if b0 <? 240 then
        match r0 with
        | b1 :: b2 :: r2 =>
            let c := (b0 - 224) * 4096 + (b1 - 128) * 64 + (b2 - 128) in
            if is_cont b1 && is_cont b2 && (2048 <=? c)
               && negb (is_surrogate c) then
              s <- decode r2 ;; Ok (c :: s)
            else Raise UnicodeDecodeError
        | _ => Raise UnicodeDecodeError
        end
      else if b0 <? 245 then
        match r0 with
        | b1 :: b2 :: b3 :: r3 =>
            let c := (b0 - 240) * 262144 + (b1 - 128) * 4096
                     + (b2 - 128) * 64 + (b3 - 128) in
            if is_cont b1 && is_cont b2 && is_cont b3
               && (65536 <=? c) && (c <=? max_code_point) then
              s <- decode r3 ;; Ok (c :: s)
            else Raise UnicodeDecodeError
        | _ => Raise UnicodeDecodeError
        end
      else Raise UnicodeDecodeError
  end.

End Utf8.

(** ** [itertools.islice] *)

(** [sys.maxsize] of a 64-bit build. *)
Definition sys_maxsize : Z := 9223372036854775807.

(** [list(islice(gen, limit))], or [list(gen)] without a limit.  [gen] is
    what the generator does once it is advanced: the items it yields, or
    the exception it raises before the first of them.  [islice] accepts a
    limit from 0 to [sys.maxsize] and raises [ValueError] for any other,
    before the generator is started; a limit of 0 never starts it. *)
Definition islice_list {A : Type} (gen : result (list A))
           (limit : option Z) : result (list A) :=
  match limit with
  | Some n =>
      if ((n <? 0) || (sys_maxsize <? n))%Z then Raise ValueError
      else if (n =? 0)%Z then Ok []
      else l <- gen ;; Ok (firstn (Z.to_nat n) l)
  | None => gen
  end.

(** ** The store: [rocksdict.Rdict] *)

Section Store.

(** The values, as the store holds them. *)
Variable V : Type.

Definition entry : Type := (pystr * V)%type.
Definition key_of (e : entry) : pystr := fst e.

(** The entries of the store, in ascending key order. *)
Definition rdict : Type := list entry.

Definition keys_sorted (db : rdict) : Prop :=
  StronglySorted lt (map key_of db).

Definition has_key (db : rdict) (key : pystr) : Prop :=
  In key (map key_of db).

(** *** RocksDB on the stored entries *)

(** The value stored under [key]. *)
Fixpoint db_get (db : rdict) (key : pystr) : option V :=
  match db with
  | [] => None
  | (k, v) :: db' => if eqb k key then Some v else db_get db' key
  end.

(** Insert or overwrite, keeping the order. *)
Fixpoint db_put (db : rdict) (key : pystr) (value : V) : rdict :=
  match db with
  | [] => [(key, value)]
  | (k, v) :: db' =>
      match compare key k with
      | Lt => (key, value) :: (k, v) :: db'
      | Eq => (key, value) :: db'
      | Gt => (k, v) :: db_put db' key value
      end
  end.

(** Remove the entry if there is one; RocksDB's Delete succeeds whether or
    not the key is present. *)
Fixpoint db_delete (db : rdict) (key : pystr) : rdict :=
  match db with
  | [] => []
  | (k, v) :: db' => if eqb k key then db' else (k, v) :: db_delete db' key
  end.

(** *** The binding

    A [str] key, and the target of a seek, reach RocksDB as UTF-8 bytes:
    the binding encodes the string first, and a string with a surrogate
    raises [UnicodeEncodeError]. *)
Definition encode_key (key : pystr) : result bytes := Utf8.encode key.

(** [Rdict.get(key, default)]: the stored value, or [default] for a key
    that is not stored.  [strict] stands for a binding that raises
    [KeyError] for such a key, as [rdict[key]] does. *)
Definition rdict_get (strict : bool) (db : rdict) (key : pystr)
           (default : option V) : result (option V) :=
  _ <- encode_key key ;;
  match db_get db key with
  | Some v => Ok (Some v)
  | None => if strict then Raise KeyError else Ok default
  end.

(** [Rdict.put(key, value)] *)
Definition rdict_put (db : rdict) (key : pystr) (value : V) : result rdict :=
  _ <- encode_key key ;; Ok (db_put db key value).

(** [del rdict[key]] *)
Definition rdict_delitem (db : rdict) (key : pystr) : result rdict :=
  _ <- encode_key key ;; Ok (db_delete db key).

(** *** Iterators

    An iterator is represented by the entries it visits from its current
    position on, in its direction of travel: the head is the current
    entry, the iterator is valid when the list is not empty, and
    [it.next()] (forward) or [it.prev()] (backward) moves to the tail. *)

Definition rdict_iter : Type := list entry.

Definition it_valid (it : rdict_iter) : bool :=
  match it with [] => false | _ :: _ => true end.

Fixpoint drop_until (p : entry -> bool) (l : list entry) : list entry :=
  match l with
  | [] => []
  | e :: l' => if p e then l else drop_until p l'
  end.

(** The entries from the first one whose key is at or past [target], going
    up; and those from the last one whose key is at or before [target],
    going down. *)
Definition first_at_or_past (db : rdict) (target : pystr) : rdict_iter :=
  drop_until (fun e => geb (key_of e) target) db.

Definition last_at_or_before (db : rdict) (target : pystr) : rdict_iter :=
  drop_until (fun e => leb (key_of e) target) (rev db).

(** [it.seek_to_first()], then moving with [next]. *)
Definition seek_to_first (db : rdict) : rdict_iter := db.

(** [it.seek(target)], then moving with [next]. *)
Definition seek (db : rdict) (target : pystr) : result rdict_iter :=
  _ <- encode_key target ;; Ok (first_at_or_past db target).

(** [it.seek_to_last()], then moving with [prev]. *)
Definition seek_to_last (db : rdict) : rdict_iter := rev db.

(** [it.seek_for_prev(target)], then moving with [prev]. *)
Definition seek_for_prev (db : rdict) (target : pystr) : result rdict_iter :=
  _ <- encode_key target ;; Ok (last_at_or_before db target).

(** ** BaseRocksDB *)

(** [BaseRocksDB.get]; a [KeyError] of the store is turned into the
    default, any other exception goes through. *)
Definition get (strict : bool) (db : rdict) (key : pystr)
           (default : option V) : result (option V) :=
  match rdict_get strict db key default with
  | Raise KeyError => Ok default
  | r => r
  end.

(** [BaseRocksDB.put] *)
Definition put (db : rdict) (key : pystr) (value : V) : result rdict :=
  rdict_put db key value.

(** [BaseRocksDB.delete] *)
Definition delete (db : rdict) (key : pystr) : result rdict :=
  rdict_delitem db key.

(** *** [BaseRocksDB.iter] *)

(** [prefix is not None and prefix != ""] *)
Definition is_prefixed (prefix : option pystr) : bool :=
  match prefix with
  | Some (_ :: _) => true
  | _ => false
  end.

(** [prefix[:-1] + chr(ord(prefix[-1]) + 1)] *)
Definition prefix_upper (prefix : pystr) : result pystr :=
  c <- chr (last_char prefix + 1) ;; Ok (init prefix ++ c).

(** The bounds after the prefix has been taken into account. *)
Definition prefix_bounds (prefix start end_ : option pystr)
  : result (option pystr * option pystr) :=
  match prefix with
  | Some ((_ :: _) as p) =>
      let start := match start with None => Some p | Some _ => start end in
      match end_ with
      | None => e <- prefix_upper p ;; Ok (start, Some e)
      | Some _ => Ok (start, end_)
      end
  | _ => Ok (start, end_)
  end.

(** [if reverse and start is not None and end is not None and start > end] *)
Definition swap_bounds (reverse : bool) (b : option pystr * option pystr)
  : option pystr * option pystr :=
  match reverse, b with
  | true, (Some s, Some e) => if gtb s e then (Some e, Some s) else b
  | _, _ => b
  end.

(** The first position of the iterator: [seek_for_prev(end)] or
    [seek_to_last()] in reverse, [seek(start)] or [seek_to_first()]
    otherwise. *)
Definition first_seek (db : rdict) (start end_ : option pystr)
           (reverse : bool) : result rdict_iter :=
  if reverse then
    match end_ with
    | Some e => seek_for_prev db e
    | None => Ok (seek_to_last db)
    end
  else
    match start with
    | Some s => seek db s
    | None => Ok (seek_to_first db)
    end.

(** [bound is not None and key < bound], [bound is not None and key >= bound] *)
Definition below (key : pystr) (bound : option pystr) : bool :=
  match bound with Some b => ltb key b | None => false end.
Definition at_or_above (key : pystr) (bound : option pystr) : bool :=
  match bound with Some b => geb key b | None => false end.

Section Loop.

Variables (prefix start end_ : option pystr) (reverse : bool).

(** [not key.startswith(prefix)], under [prefix is not None and prefix != ""] *)
Definition prefix_miss (key : pystr) : bool :=
  match prefix with
  | Some ((_ :: _) as p) => negb (startswith key p)
  | _ => false
  end.

Definition prefix_passed (key : pystr) : bool :=
  match prefix with
  | Some p => if reverse then ltb key p else gtb key p
  | None => false
  end.

(** The [while it.valid()] loop; the result is the list of the pairs
    yielded. *)
Fixpoint iter_loop (it : rdict_iter) : list entry :=
  match it with
  | [] => []
  | (key, value) :: it' =>
      if reverse then
        if below key start then []
        else if at_or_above key end_ then iter_loop it'
        else if prefix_miss key then
               if prefix_passed key then [] else iter_loop it'
        else (key, value) :: iter_loop it'
      else
        if at_or_above key end_ then []
        else if below key start then iter_loop it'
        else if prefix_miss key then
               if prefix_passed key then [] else iter_loop it'
        else (key, value) :: iter_loop it'
  end.

End Loop.

(** The generator, as the list of the pairs it yields, or the exception it
    raises; it raises before the first pair only.  When the iterator is
    not valid after the first seek the generator returns without a pair,
    in reverse after a [seek_for_prev(start)] that can still raise. *)
Definition iter (db : rdict) (prefix start end_ : option pystr)
           (reverse : bool) : result (list entry) :=
  b <- prefix_bounds prefix start end_ ;;
  let '(start, end_) := swap_bounds reverse b in
  it <- first_seek db start end_ reverse ;;
  if negb (it_valid it) then
    match reverse, start with
    | true, Some s => _ <- seek_for_prev db s ;; Ok []
    | _, _ => Ok []
    end
  else Ok (iter_loop prefix start end_ reverse it).

(** [BaseRocksDB.items]: [list(islice(iterator, limit))] when a limit is
    given, [list(iterator)] otherwise. *)
Definition items (db : rdict) (prefix start end_ : option pystr)
           (reverse : bool) (limit : option Z) : result (list entry) :=
  islice_list (iter db prefix start end_ reverse) limit.

End Store.

(** ** URL-safe base64 *)

Module Base64.

(** The URL-safe alphabet: [A-Z], [a-z], [0-9], [-], [_]. *)
Definition b2a (x : N) : N :=
  if x <? 26 then 65 + x
  else if x <? 52 then 97 + (x - 26)
  else if x <? 62 then 48 + (x - 52)
  else if x =? 62 then 45
  else 95.

Definition pad : N := 61.

(** [base64.urlsafe_b64encode] *)
Fixpoint urlsafe_b64encode (b : bytes) : bytes :=
  match b with
  | [] => []
  | [x] => [b2a (x / 4); b2a (x mod 4 * 16); pad; pad]
  | [x; y] =>
      [b2a (x / 4); b2a (x mod 4 * 16 + y / 16); b2a (y mod 16 * 4); pad]
  | x :: y :: z :: b' =>
      b2a (x / 4) :: b2a (x mod 4 * 16 + y / 16)
      :: b2a (y mod 16 * 4 + z / 64) :: b2a (z mod 64)
      :: urlsafe_b64encode b'
  end.

(** [bytes.translate]: [-] to [+] and [_] to [/]. *)
Definition urlsafe_translate (ch : N) : N :=
  if ch =? 45 then 43 else if ch =? 95 then 47 else ch.

(** The standard decoding table; [None] for a byte outside the
    alphabet. *)
Definition a2b (ch : N) : option N :=
  if (65 <=? ch) && (ch <=? 90) then Some (ch - 65)
  else if (97 <=? ch) && (ch <=? 122) then Some (ch - 97 + 26)
  else if (48 <=? ch) && (ch <=? 57) then Some (ch - 48 + 52)
  else if ch =? 43 then Some 62
  else if ch =? 47 then Some 63
  else None.

(** [binascii.a2b_base64] in its default mode: bytes outside the alphabet
    are skipped, a complete pad sequence ends the input, and an
    incomplete last group is an error. *)
Fixpoint a2b_base64 (s : bytes) (quad_pos leftchar pads : N)
         (out : bytes) : result bytes :=
  match s with
  | [] => if quad_pos =? 0 then Ok (rev out) else Raise BinasciiError
  | ch :: s' =>
      if ch =? pad then
        if (2 <=? quad_pos) && (4 <=? quad_pos + (pads + 1))
        then Ok (rev out)
        else a2b_base64 s' quad_pos leftchar
               (if 2 <=? quad_pos then pads + 1 else pads) out
      else
        match a2b ch with
        | None => a2b_base64 s' quad_pos leftchar pads out
        | Some x =>
            if quad_pos =? 0 then a2b_base64 s' 1 x 0 out
            else if quad_pos =? 1 then
              a2b_base64 s' 2 (x mod 16) 0 ((leftchar * 4 + x / 16) :: out)
            else if quad_pos =? 2 then
              a2b_base64 s' 3 (x mod 4) 0 ((leftchar * 16 + x / 4) :: out)
            else
              a2b_base64 s' 0 0 0 ((leftchar * 64 + x) :: out)
        end
  end.

(** [base64.urlsafe_b64decode] *)
Definition urlsafe_b64decode (s : bytes) : result bytes :=
  a2b_base64 (map urlsafe_translate s) 0 0 0 [].

End Base64.

(** ** The cursor *)

(** [_encode_cursor]: [base64.urlsafe_b64encode(str(key).encode()).decode()] *)
Definition _encode_cursor (key : pystr) : result pystr :=
  b <- Utf8.encode key ;;
  Utf8.decode (Base64.urlsafe_b64encode b).

(** [_decode_cursor]:
    [base64.urlsafe_b64decode(cursor.encode()).decode() + '\0'] *)
Definition _decode_cursor (cursor : pystr) : result pystr :=
  b <- Utf8.encode cursor ;;
  raw <- Base64.urlsafe_b64decode b ;;
  key <- Utf8.decode raw ;;
  Ok (key ++ [0]).

(** ** [BaseRocksDB.paginate] *)

Record page (V : Type) : Type := mk_page {
  page_items : list (entry V);
  has_more : bool;
  next_cursor : option pystr;
  prev_cursor : option pystr   (* [None]: the dict has no such key *)
}.

(** Truth value of an [Optional[str]]. *)
Definition truthy (s : option pystr) : bool :=
  match s with
  | Some (_ :: _) => true
  | _ => false
  end.

(** [l[:n]] *)
Definition slice_to {A : Type} (l : list A) (n : Z) : list A :=
  if (n <? 0)%Z then firstn (Z.to_nat (Z.of_nat (length l) + n)) l
  else firstn (Z.to_nat n) l.

Section Paginate.

Variable V : Type.

(** [items[-1]] when [items] is not empty. *)
Fixpoint last_entry (l : list (entry V)) : option (entry V) :=
  match l with
  | [] => None
  | [e] => Some e
  | _ :: l' => last_entry l'
  end.

(** [if cursor: kwargs['start'] = self._decode_cursor(cursor)] *)
Definition resume_start (cursor start : option pystr)
  : result (option pystr) :=
  match cursor with
  | Some ((_ :: _) as c) => k <- _decode_cursor c ;; Ok (Some k)
  | _ => Ok start
  end.

(** [BaseRocksDB.paginate]; of the keyword arguments passed on to [items]
    the model keeps [prefix], [start], [end] and [reverse]. *)
Definition paginate (db : rdict V) (page_size : Z) (cursor : option pystr)
           (include_cursor : bool)
           (prefix start end_ : option pystr) (reverse : bool)
  : result (page V) :=
  start <- resume_start cursor start ;;
  fetched <- items db prefix start end_ reverse (Some (page_size + 1)%Z) ;;
  let more := (page_size <? Z.of_nat (length fetched))%Z in
  let its := if more then slice_to fetched page_size else fetched in
  next <- (match (if more then last_entry its else None) with
           | Some (k, _) => c <- _encode_cursor k ;; Ok (Some c)
           | None => Ok None
           end) ;;
  Ok {| page_items := its;
        has_more := more;
        next_cursor := next;
        prev_cursor := if include_cursor && truthy cursor
                       then cursor else None |}.

(** A client that reads a whole store page by page, as the test of
    [paginate] does: it calls [paginate] without a cursor, then with the
    [next_cursor] of the page before, until a page says that there is no
    more, and at most [calls] times. *)
Fixpoint paginate_all (calls : nat) (db : rdict V) (page_size : Z)
         (prefix cursor : option pystr) : result (list (page V)) :=
  match calls with
  | O => Ok []
  | S n =>
      r <- paginate db page_size cursor true prefix None None false ;;
      if has_more r then
        rest <- paginate_all n db page_size prefix (next_cursor r) ;;
        Ok (r :: rest)
      else Ok [r]
  end.

End Paginate.

(** ** The other methods of [BaseRocksDB] *)

Section Methods.

Variable V : Type.

(** [BaseRocksDB.keys]: [(k for k, _ in self.iter(...))] under [islice]. *)
Definition keys (db : rdict V) (prefix start end_ : option pystr)
           (reverse : bool) (limit : option Z) : result (list pystr) :=
  islice_list (l <- iter db prefix start end_ reverse ;;
               Ok (map (@key_of V) l)) limit.

(** [BaseRocksDB.values]: [(v for _, v in self.iter(...))] under [islice]. *)
Definition values (db : rdict V) (prefix start end_ : option pystr)
           (reverse : bool) (limit : option Z) : result (list V) :=
  islice_list (l <- iter db prefix start end_ reverse ;;
               Ok (map (@snd pystr V) l)) limit.

(** [BaseRocksDB.iter_keys] and [BaseRocksDB.iter_values], as the lists of
    what they yield. *)
Definition iter_keys (db : rdict V) (prefix start end_ : option pystr)
           (reverse : bool) (limit : option Z) : result (list pystr) :=
  islice_list (l <- iter db prefix start end_ reverse ;;
               Ok (map (@key_of V) l)) limit.

Definition iter_values (db : rdict V) (prefix start end_ : option pystr)
           (reverse : bool) (limit : option Z) : result (list V) :=
  islice_list (l <- iter db prefix start end_ reverse ;;
               Ok (map (@snd pystr V) l)) limit.

(** [BaseRocksDB.key_exist], called without read options.  [may] is the
    answer [(existing, value)] of [Rdict.key_may_exist(key, True)].  In the
    last branch the store is read with [target.get(key, options)], whose
    second argument is the default of [Rdict.get]. *)
Definition key_exist (strict : bool) (db : rdict V) (key : pystr)
           (may : bool * option V) : result (bool * option V) :=
  match may with
  | (true, Some v) => Ok (true, Some v)
  | (false, _) => Ok (false, None)
  | (true, None) =>
      match rdict_get strict db key None with
      | Ok value => Ok (true, value)
      | Raise KeyError => Ok (false, None)
      | Raise e => Raise e
      end
  end.

(** What [Rdict.key_may_exist(key, True)] can have answered for [key]: it
    has encoded the key, its filter never says "no" for a stored key, and
    it hands back no other value than the stored one. *)
Definition may_exist_ok (db : rdict V) (key : pystr)
           (may : bool * option V) : Prop :=
  Utf8.encodable key /\
  (has_key db key -> fst may = true) /\
  (forall v, snd may = Some v -> In (key, v) db).

(** A [WriteBatch] is the list of the operations put into it.
    [WriteBatch.put] and [WriteBatch.delete] encode the key when the
    operation is added, so that an operation holds a key that encodes. *)
Inductive batch_op : Type :=
| BatchPut (key : pystr) (value : V) (encoded : Utf8.encodable key)
| BatchDelete (key : pystr) (encoded : Utf8.encodable key).

Definition apply_op (db : rdict V) (op : batch_op) : rdict V :=
  match op with
  | @BatchPut key value _ => db_put db key value
  | @BatchDelete key _ => db_delete db key
  end.

(** [BaseRocksDB.write]: [self._db.write(batch)] applies the operations of
    the batch in their order. *)
Fixpoint write (db : rdict V) (batch : list batch_op) : result (rdict V) :=
  match batch with
  | [] => Ok db
  | op :: batch' => write (apply_op db op) batch'
  end.

(** The last operation of a batch on [key]: [None] when there is none,
    [Some None] for a delete, [Some (Some v)] for a put of [v]. *)
Fixpoint last_op (batch : list batch_op) (key : pystr)
  : option (option V) :=
  match batch with
  | [] => None
  | op :: batch' =>
      match last_op batch' key with
      | Some o => Some o
      | None =>
          match op with
          | @BatchPut k v _ => if eqb k key then Some (Some v) else None
          | @BatchDelete k _ => if eqb k key then Some None else None
          end
      end
  end.

End Methods.

Arguments BatchPut {V} key value encoded.
Arguments BatchDelete {V} key encoded.

(** ** Reference notions used in the statements *)

(** [start <= key < end], an absent bound being no bound. *)
Definition in_range (start end_ : option pystr) (key : pystr) : bool :=
  negb (below key start) && negb (at_or_above key end_).

Definition within {V : Type} (start end_ : option pystr) (e : entry V)
  : bool :=
  in_range start end_ (key_of e).

(** The entries in range pass the prefix test of the loop. *)
Definition range_hits {V : Type} (prefix start end_ : option pystr)
           (l : list (entry V)) : Prop :=
  Forall (fun e => within start end_ e = true ->
                   prefix_miss prefix (key_of e) = false) l.

(** The same as a proposition. *)
Definition key_in_range (start end_ : option pystr) (key : pystr) : Prop :=
  (forall s, start = Some s -> le s key) /\
  (forall t, end_ = Some t -> lt key t).

(** Keys in descending order. *)
Definition keys_descending {V : Type} (l : list (entry V)) : Prop :=
  StronglySorted (fun a b => lt b a) (map (@key_of V) l).

(** The keys of a store are strings that the store can hold. *)
Definition keys_encodable {V : Type} (db : rdict V) : Prop :=
  Forall (fun e => Utf8.encodable (key_of e)) db.

(** Where the first seek of [iter] leaves the iterator when it returns. *)
Definition first_position {V : Type} (db : rdict V)
           (start end_ : option pystr) (reverse : bool) : rdict_iter V :=
  if reverse then
    match end_ with
    | Some e => last_at_or_before db e
    | None => seek_to_last db
    end
  else
    match start with
    | Some s => first_at_or_past db s
    | None => seek_to_first db
    end.

(** The bound, when there is one, is a string that the store can encode. *)
Definition bound_ok (bound : option pystr) : Prop :=
  match bound with
  | Some b => Utf8.encodable b
  | None => True
  end.

(** The bounds that the iteration seeks can be encoded: the lower one
    going up, both going down. *)
Definition seeks_ok (reverse : bool) (lo hi : option pystr) : Prop :=
  bound_ok lo /\ (reverse = true -> bound_ok hi).

(** The prefix, when one is given, has an upper bound and is a prefix of
    every key of the store. *)
Definition prefix_covers {V : Type} (prefix : option pystr) (db : rdict V)
  : Prop :=
  match prefix with
  | Some ((_ :: _) as p) =>
      last_char p < max_code_point /\
      Forall (fun e => startswith (key_of e) p = true) db
  | _ => True
  end.

(** [cursor] is what a client holds after it has read the pairs [done]:
    nothing before the first page, and then the non-empty cursor made from
    the last key read. *)
Definition resume_ok {V : Type} (done : list (entry V))
           (cursor : option pystr) : Prop :=
  match last_entry done with
  | None => cursor = None
  | Some (k, _) =>
      exists c, _encode_cursor k = Ok c /\ c <> [] /\ cursor = Some c
  end.

(** The list in the order of the iteration. *)
Definition in_direction {A : Type} (reverse : bool) (l : list A) : list A :=
  if reverse then rev l else l.

(** Keys in the order of the iteration. *)
Definition keys_in_order {V : Type} (reverse : bool) (l : list (entry V))
  : Prop :=
  if reverse then keys_descending l else keys_sorted l.

(** The key passes the prefix test of the loop. *)
Definition prefix_hit (prefix : option pystr) (key : pystr) : bool :=
  negb (prefix_miss prefix key).

(** The characters of a cursor: [A-Z], [a-z], [0-9], [-], [_] and [=]. *)
Definition url_safe_char (c : N) : bool :=
  ((65 <=? c) && (c <=? 90)) || ((97 <=? c) && (c <=? 122))
  || ((48 <=? c) && (c <=? 57)) || (c =? 45) || (c =? 95) || (c =? 61).

(** The same without the padding character. *)
Definition url_safe_data_char (c : N) : bool :=
  ((65 <=? c) && (c <=? 90)) || ((97 <=? c) && (c <=? 122))
  || ((48 <=? c) && (c <=? 57)) || (c =? 45) || (c =? 95).

(** Decidable forms of the two conditions on a store. *)
Fixpoint ascending (ks : list pystr) : bool :=
  match ks with
  | [] => true
  | k :: ks' =>
      match ks' with
      | [] => true
      | k' :: _ => ltb k k' && ascending ks'
      end
  end.

Definition keys_sortedb {V : Type} (db : rdict V) : bool :=
  ascending (map (@key_of V) db).

Definition keys_encodableb {V : Type} (db : rdict V) : bool :=
  forallb (fun e => forallb Utf8.is_scalar (key_of e)) db.

(** ** Sample stores, after the tests of the repository *)

Module Sample.

Import String Ascii.

Fixpoint of_string (s : string) : pystr :=
  match s with
  | EmptyString => []
  | String a s' => N_of_ascii a :: of_string s'
  end.

(** [f"{i:03d}"] for [i < 1000] *)
Definition digits3 (i : N) : pystr :=
  [48 + i / 100; 48 + (i / 10) mod 10; 48 + i mod 10].

(** The 100 items of [test_paginate_method]:
    [item:000 -> value-000], ..., [item:099 -> value-099]. *)
Definition hundred : rdict pystr :=
  map (fun i => let d := digits3 (N.of_nat i) in
                (of_string "item:" ++ d, of_string "value-" ++ d))
      (seq 0 100).

(** A few of the pairs of [populated_db]. *)
Definition users : rdict pystr :=
  map (fun kv => (of_string (fst kv), of_string (snd kv)))
      [("config:01", "setting1"); ("log:01", "log entry 1");
       ("user:01", "alice"); ("user:02", "bob"); ("user:03", "charlie");
       ("user:04", "david"); ("user:05", "eve")]%string.

Definition user_02 : pystr := of_string "user:02".
Definition user_03 : pystr := of_string "user:03".
Definition user_04 : pystr := of_string "user:04".
Definition user_05 : pystr := of_string "user:05".
Definition user_99 : pystr := of_string "user:99".
Definition user_prefix : pystr := of_string "user:".
Definition item_prefix : pystr := of_string "item:".
Definition nonexistent : pystr := of_string "nonexistent".
Definition default_value : pystr := of_string "default".

(** The store of [test_iter_range]: [user:01], ..., [user:10]. *)
Definition ten_users : rdict pystr :=
  map (fun i => let d := digits3 (N.of_nat i) in
                (of_string "user:" ++ tl d, of_string "user_" ++ tl d))
      (seq 1 10).

Definition user_00 : pystr := of_string "user:00".
Definition user_08 : pystr := of_string "user:08".

Definition user_08_value : pystr := of_string "user_08".
Definition bob : pystr := of_string "bob".

(** A cursor cut after its first six characters. *)
Definition cut_cursor : pystr := of_string "dXNlcj".

(** A store whose first key is the empty string. *)
Definition v0 : pystr := of_string "v0".
Definition with_empty_key : rdict pystr :=
  [([], v0); (of_string "a", of_string "v1")].

(** [chr(0xD800)] and [chr(0xD7FF)]: a surrogate alone, which UTF-8 does
    not encode, and the character before the surrogates. *)
Definition lone_surrogate : pystr := [55296].
Definition before_surrogates : pystr := [55295].

End Sample.

(** * Properties *)

Lemma Ok_inj (A : Type) (a b : A) : Ok a = Ok b -> a = b.
Proof. now intros [= ->]. Qed.

(** ** The order on strings *)

Module PyStrFacts.

Lemma compare_refl (a : pystr) : compare a a = Eq.
Proof.
  induction a as [|x a IH]; simpl; [reflexivity|].
  now rewrite N.compare_refl.
Qed.

Lemma compare_eq (a b : pystr) : compare a b = Eq -> a = b.
Proof.
  revert b; induction a as [|x a IH]; intros [|y b]; simpl;
    try discriminate; [reflexivity|].
  destruct (N.compare_spec x y) as [Exy|Lxy|Gxy]; try discriminate.
  intros H; subst; f_equal; auto.
Qed.

Lemma compare_antisym (a b : pystr) :
  compare b a = CompOpp (compare a b).
Proof.
  revert b; induction a as [|x a IH]; intros [|y b]; simpl; try reflexivity.
  rewrite (N.compare_antisym x y).
  destruct (N.compare x y); simpl; auto.
Qed.

Lemma lt_trans (a b c : pystr) : lt a b -> lt b c -> lt a c.
Proof.
  unfold lt; revert b c; induction a as [|x a IH]; intros [|y b] [|z c];
    simpl; try discriminate; auto.
  destruct (N.compare_spec x y) as [Exy|Lxy|Gxy],
           (N.compare_spec y z) as [Eyz|Lyz|Gyz];
    try discriminate; subst; intros H1 H2.
  - rewrite N.compare_refl; eauto.
  - now apply N.compare_lt_iff in Lyz as ->.
  - now apply N.compare_lt_iff in Lxy as ->.
  - assert (x < z) as ->%N.compare_lt_iff by lia; reflexivity.
Qed.

Lemma lt_irrefl (a : pystr) : ~ lt a a.
Proof. unfold lt; now rewrite compare_refl. Qed.

Lemma ltb_lt (a b : pystr) : ltb a b = true <-> lt a b.
Proof. unfold ltb, lt; destruct (compare a b); intuition congruence. Qed.

Lemma gtb_lt (a b : pystr) : gtb a b = true <-> lt b a.
Proof.
  unfold gtb, lt; rewrite (compare_antisym a b).
  destruct (compare a b); simpl; intuition congruence.
Qed.

Lemma geb_le (a b : pystr) : geb a b = true <-> le b a.
Proof.
  unfold geb, ltb, le; rewrite (compare_antisym a b).
  destruct (compare a b); simpl; split; intros H; congruence.
Qed.

Lemma leb_le (a b : pystr) : leb a b = true <-> le a b.
Proof.
  unfold leb, gtb, le.
  destruct (compare a b); simpl; split; intros H; congruence.
Qed.

Lemma eqb_eq (a b : pystr) : eqb a b = true <-> a = b.
Proof.
  unfold eqb; split.
  - destruct (compare a b) eqn:E; try discriminate.
    intros _; now apply compare_eq.
  - intros ->; now rewrite compare_refl.
Qed.

Lemma le_lteq (a b : pystr) : le a b <-> lt a b \/ a = b.
Proof.
  unfold le, lt; split.
  - destruct (compare a b) eqn:E; intros H; auto; [|congruence].
    right; now apply compare_eq.
  - intros [->| ->]; [discriminate|]; now rewrite compare_refl.
Qed.

Lemma le_not_lt (a b : pystr) : le a b <-> ~ lt b a.
Proof.
  unfold le, lt; rewrite (compare_antisym a b).
  destruct (compare a b); simpl; intuition congruence.
Qed.

Lemma lt_le_trans (a b c : pystr) : lt a b -> le b c -> lt a c.
Proof.
  intros H [H'| ->]%le_lteq; eauto using lt_trans.
Qed.

Lemma le_lt_trans (a b c : pystr) : le a b -> lt b c -> lt a c.
Proof.
  intros [H'| ->]%le_lteq H; eauto using lt_trans.
Qed.

Lemma le_trans (a b c : pystr) : le a b -> le b c -> le a c.
Proof.
  intros [H| ->]%le_lteq H'; auto.
  apply le_lteq; left; eauto using lt_le_trans.
Qed.

Lemma ltb_false_le (a b : pystr) : ltb a b = false <-> le b a.
Proof.
  rewrite le_not_lt, <- ltb_lt; destruct (ltb a b); intuition congruence.
Qed.

Lemma gtb_false_le (a b : pystr) : gtb a b = false <-> le a b.
Proof.
  rewrite le_not_lt, <- gtb_lt; destruct (gtb a b); intuition congruence.
Qed.

Lemma le_app (p t : pystr) : le p (p ++ t).
Proof.
  unfold le; induction p as [|a p IH]; simpl; [now destruct t|].
  now rewrite N.compare_refl.
Qed.

Lemma startswith_app (s p : pystr) :
  startswith s p = true <-> exists t, s = p ++ t.
Proof.
  revert s; induction p as [|y p IH]; intros s; simpl.
  - split; [intros _; now exists s|intros _; now destruct s].
  - destruct s as [|x s].
    + split; [discriminate|intros [t H]; discriminate].
    + simpl; rewrite andb_true_iff, N.eqb_eq, IH; split.
      * intros [-> [t ->]]; eauto.
      * intros [t H]; injection H as -> ->; eauto.
Qed.

End PyStrFacts.

Import PyStrFacts.

(** ** UTF-8 and its inverse *)

Ltac dlia := zify; Z.to_euclidean_division_equations; lia.

(** Settle the comparisons of the goal by arithmetic. *)
Ltac settle_tests :=
  repeat match goal with
    | |- context [?a <? ?b] =>
        first [ replace (a <? b) with true
                  by (symmetry; apply N.ltb_lt; dlia)
              | replace (a <? b) with false
                  by (symmetry; apply N.ltb_ge; dlia) ]
    | |- context [?a <=? ?b] =>
        first [ replace (a <=? b) with true
                  by (symmetry; apply N.leb_le; dlia)
              | replace (a <=? b) with false
                  by (symmetry; apply N.leb_gt; dlia) ]
    | |- context [?a =? ?b] =>
        first [ replace (a =? b) with true
                  by (symmetry; apply N.eqb_eq; dlia)
              | replace (a =? b) with false
                  by (symmetry; apply N.eqb_neq; dlia) ]
    end;
  cbv beta iota.

Module Utf8Facts.
Import Utf8.

Lemma decode_cons b0 r0 :
  decode (b0 :: r0) =
    if b0 <? 128 then s <- decode r0 ;; Ok (b0 :: s)
    else if b0 <? 194 then Raise UnicodeDecodeError
    else if b0 <? 224 then
      match r0 with
      | b1 :: r1 =>
          if is_cont b1 then
            s <- decode r1 ;;
            Ok (((b0 - 192) * 64 + (b1 - 128)) :: s)
          else Raise UnicodeDecodeError
      | _ => Raise UnicodeDecodeError
      end
    else if b0 <? 240 then
      match r0 with
      | b1 :: b2 :: r2 =>
          let c := (b0 - 224) * 4096 + (b1 - 128) * 64 + (b2 - 128) in
          if is_cont b1 && is_cont b2 && (2048 <=? c)
             && negb (is_surrogate c) then
            s <- decode r2 ;; Ok (c :: s)
          else Raise UnicodeDecodeError
      | _ => Raise UnicodeDecodeError
      end
    else if b0 <? 245 then
      match r0 with
      | b1 :: b2 :: b3 :: r3 =>
          let c := (b0 - 240) * 262144 + (b1 - 128) * 4096
                   + (b2 - 128) * 64 + (b3 - 128) in
          if is_cont b1 && is_cont b2 && is_cont b3
             && (65536 <=? c) && (c <=? max_code_point) then
            s <- decode r3 ;; Ok (c :: s)
          else Raise UnicodeDecodeError
      | _ => Raise UnicodeDecodeError
      end
    else Raise UnicodeDecodeError.
Proof. reflexivity. Qed.

Lemma is_cont_cont x : is_cont (cont x) = true.
Proof. unfold is_cont, cont; settle_tests; reflexivity. Qed.

Lemma cont_value x : cont x - 128 = x mod 64.
Proof. unfold cont; dlia. Qed.

(** Decoding reads back the bytes of one code point. *)
Lemma decode_encode_char c bs rest :
  encode_char c = Ok bs ->
  decode (bs ++ rest) = (s <- decode rest ;; Ok (c :: s)).
Proof.
  unfold encode_char.
  destruct (N.ltb_spec c 128) as [H1|H1].
  { intros <-%Ok_inj; cbn [app]; rewrite decode_cons.
    now apply N.ltb_lt in H1 as ->. }
  destruct (N.ltb_spec c 2048) as [H2|H2].
  { intros <-%Ok_inj; cbn [app]; rewrite decode_cons, is_cont_cont, cont_value.
    settle_tests.
    now replace ((192 + c / 64 - 192) * 64 + c mod 64) with c by dlia. }
  destruct (is_surrogate c) eqn:Hs; [discriminate|].
  destruct (N.ltb_spec c 65536) as [H3|H3].
  { intros <-%Ok_inj; cbn [app]; rewrite decode_cons, !is_cont_cont, !cont_value.
    cbv zeta.
    replace ((224 + c / 4096 - 224) * 4096 + (c / 64) mod 64 * 64
             + c mod 64) with c by dlia.
    rewrite Hs.
    apply N.leb_le in H2 as ->.
    settle_tests; reflexivity. }
  destruct (N.leb_spec c max_code_point) as [H4|H4]; [|discriminate].
  intros <-%Ok_inj; cbn [app]; rewrite decode_cons, !is_cont_cont, !cont_value.
  cbv zeta; unfold max_code_point in *.
  replace ((240 + c / 262144 - 240) * 262144 + (c / 4096) mod 64 * 4096
           + (c / 64) mod 64 * 64 + c mod 64) with c by dlia.
  rewrite (proj2 (N.leb_le _ _) H3), (proj2 (N.leb_le _ _) H4).
  settle_tests; reflexivity.
Qed.

(** [b.decode()] undoes [s.encode()]. *)
Lemma decode_encode s b : encode s = Ok b -> decode b = Ok s.
Proof.
  revert b; induction s as [|c s IH]; simpl; intros b.
  - now intros [= <-].
  - destruct (encode_char c) as [bc|] eqn:Ec; [|discriminate]; simpl.
    destruct (encode s) as [bs|]; [|discriminate]; simpl.
    intros [= <-].
    now rewrite (decode_encode_char c bs Ec), (IH bs eq_refl).
Qed.

Lemma encode_char_scalar c :
  is_scalar c = true -> exists bs, encode_char c = Ok bs.
Proof.
  unfold is_scalar, encode_char.
  intros [H1 H2%negb_true_iff]%andb_true_iff; rewrite H1, H2.
  repeat match goal with |- context [if ?b then _ else _] =>
                           destruct b end; eauto.
Qed.

Lemma encode_char_bytes c bs :
  encode_char c = Ok bs -> Forall (fun b => b < 256) bs.
Proof.
  unfold encode_char, cont, max_code_point.
  repeat match goal with
         | |- context [?a <? ?b] => destruct (N.ltb_spec a b)
         | |- context [?a <=? ?b] => destruct (N.leb_spec a b)
         | |- context [is_surrogate c] => destruct (is_surrogate c)
         end;
    try discriminate;
    intros <-%Ok_inj; repeat (apply Forall_cons; [dlia|]);
    apply Forall_nil.
Qed.

Lemma encode_char_nonempty c bs : encode_char c = Ok bs -> bs <> [].
Proof.
  unfold encode_char.
  repeat match goal with |- context [if ?b then _ else _] =>
                           destruct b end;
    intros [= <-]; discriminate.
Qed.

(** An encodable string is encoded, into bytes. *)
Lemma encode_encodable s :
  encodable s ->
  exists b, encode s = Ok b /\ Forall (fun x => x < 256) b
            /\ (s <> [] -> b <> []).
Proof.
  induction 1 as [|c s Hc Hs (b & Eb & Hb & _)]; simpl.
  - exists []; repeat split; auto; congruence.
  - destruct (encode_char_scalar c Hc) as [bc Ec].
    rewrite Ec, Eb; simpl; exists (bc ++ b); repeat split.
    + apply Forall_app; split; eauto using encode_char_bytes.
    + intros _ [E _]%app_eq_nil; now apply encode_char_nonempty in Ec.
Qed.

(** Seven-bit text is its own encoding. *)
Lemma encode_ascii l : Forall (fun b => b < 128) l -> encode l = Ok l.
Proof.
  induction 1 as [|b l Hb _ IH]; simpl; [reflexivity|].
  unfold encode_char; apply N.ltb_lt in Hb as ->; simpl.
  now rewrite IH.
Qed.

Lemma decode_ascii l : Forall (fun b => b < 128) l -> decode l = Ok l.
Proof. intros H; apply decode_encode, encode_ascii, H. Qed.

Lemma compare_app_same (p a b : pystr) :
  compare (p ++ a) (p ++ b) = compare a b.
Proof.
  induction p as [|x p IH]; simpl; [reflexivity|].
  now rewrite N.compare_refl.
Qed.

(** The encoding of a smaller code point is smaller, byte by byte, whatever
    follows. *)
Lemma encode_char_lt c d bc bd (ra rb : bytes) :
  encode_char c = Ok bc -> encode_char d = Ok bd -> c < d ->
  compare (bc ++ ra) (bd ++ rb) = Lt.
Proof.
  unfold encode_char, cont, max_code_point.
  repeat match goal with
         | |- context [?a <? ?b] => destruct (N.ltb_spec a b)
         | |- context [?a <=? ?b] => destruct (N.leb_spec a b)
         | |- context [is_surrogate ?x] => destruct (is_surrogate x)
         end;
    try discriminate;
    intros <-%Ok_inj <-%Ok_inj Hlt; cbn [app compare];
    repeat match goal with
           | |- context [?x ?= ?y] =>
               destruct (N.compare_spec x y); try reflexivity
           end;
    exfalso; dlia.
Qed.

(** The bytes of two encoded strings compare as the strings do: the store,
    which orders keys by their bytes, orders them as Python does. *)
Lemma encode_compare (a b : pystr) (ba bb : bytes) :
  encode a = Ok ba -> encode b = Ok bb -> compare ba bb = compare a b.
Proof.
  revert b ba bb; induction a as [|c a IH]; intros [|d b] ba bb; simpl.
  - now intros <-%Ok_inj <-%Ok_inj.
  - intros <-%Ok_inj.
    destruct (encode_char d) as [bd|] eqn:Ed; [|discriminate]; simpl.
    destruct (encode b) as [rb|]; [|discriminate]; simpl.
    intros <-%Ok_inj.
    apply encode_char_nonempty in Ed; now destruct bd.
  - destruct (encode_char c) as [bc|] eqn:Ec; [|discriminate]; simpl.
    destruct (encode a) as [ra|]; [|discriminate]; simpl.
    intros <-%Ok_inj <-%Ok_inj.
    apply encode_char_nonempty in Ec; now destruct bc.
  - destruct (encode_char c) as [bc|] eqn:Ec; [|discriminate]; simpl.
    destruct (encode a) as [ra|] eqn:Ea; [|discriminate]; simpl.
    destruct (encode_char d) as [bd|] eqn:Ed; [|discriminate]; simpl.
    destruct (encode b) as [rb|] eqn:Eb; [|discriminate]; simpl.
    intros <-%Ok_inj <-%Ok_inj.
    destruct (N.compare_spec c d) as [E|L|G].
    + subst d; rewrite Ec in Ed; apply Ok_inj in Ed as <-.
      rewrite compare_app_same; now apply IH.
    + exact (encode_char_lt ra rb Ec Ed L).
    + rewrite (compare_antisym (bd ++ rb) (bc ++ ra)).
      now rewrite (encode_char_lt rb ra Ed Ec G).
Qed.

End Utf8Facts.

(** ** Keys that the store can encode *)

Section KeyFacts.

Import Utf8 Utf8Facts.

Lemma encode_char_ok_scalar c bs : encode_char c = Ok bs -> is_scalar c = true.
Proof.
  unfold encode_char, is_scalar, is_surrogate, max_code_point.
  repeat match goal with
         | |- context [?a <? ?b] => destruct (N.ltb_spec a b)
         | |- context [?a <=? ?b] => destruct (N.leb_spec a b)
         end; simpl; try discriminate; try reflexivity; intros _; lia.
Qed.

Lemma encode_char_not_scalar c :
  is_scalar c = false -> encode_char c = Raise UnicodeEncodeError.
Proof.
  unfold encode_char, is_scalar, is_surrogate, max_code_point.
  repeat match goal with
         | |- context [?a <? ?b] => destruct (N.ltb_spec a b)
         | |- context [?a <=? ?b] => destruct (N.leb_spec a b)
         end; simpl; try discriminate; try reflexivity; intros _; lia.
Qed.

Lemma encode_ok_encodable s b : encode s = Ok b -> encodable s.
Proof.
  unfold encodable; revert b; induction s as [|c s IH]; simpl; intros b;
    [constructor|].
  destruct (encode_char c) as [bc|] eqn:Ec; [|discriminate]; simpl.
  destruct (encode s) as [bs|]; [|discriminate]; simpl; intros _.
  constructor; eauto using encode_char_ok_scalar.
Qed.

(** A string with a code point that is not a scalar value is not
    encoded. *)
Lemma encode_not_encodable s :
  forallb is_scalar s = false -> encode s = Raise UnicodeEncodeError.
Proof.
  induction s as [|c s IH]; simpl; [discriminate|].
  destruct (is_scalar c) eqn:Ec; simpl.
  - intros H; destruct (encode_char_scalar c Ec) as [bc ->]; simpl.
    now rewrite (IH H).
  - intros _; now rewrite (encode_char_not_scalar c Ec).
Qed.

Lemma encodable_forallb s : encodable s <-> forallb is_scalar s = true.
Proof. unfold encodable; now rewrite forallb_forall, Forall_forall. Qed.

Lemma encodable_app (s t : pystr) :
  encodable (s ++ t) <-> encodable s /\ encodable t.
Proof. apply Forall_app. Qed.

Lemma encodable_succ (k : pystr) : encodable k -> encodable (k ++ [0]).
Proof. intros H; apply encodable_app; split; [exact H|now repeat constructor]. Qed.

(** A string that a key of the store starts with can be encoded. *)
Lemma startswith_encodable (s p : pystr) :
  startswith s p = true -> encodable s -> encodable p.
Proof.
  intros [t ->]%startswith_app H; now apply encodable_app in H.
Qed.

Variable A : Type.

Lemma encode_key_bind (k : pystr) (r : result A) :
  encodable k -> (_ <- encode_key k ;; r) = r.
Proof.
  intros H; unfold encode_key.
  now destruct (encode_encodable H) as (b & -> & _).
Qed.

Lemma encode_key_bind_inv (k : pystr) (r : result A) (x : A) :
  (_ <- encode_key k ;; r) = Ok x -> encodable k /\ r = Ok x.
Proof.
  unfold encode_key; destruct (encode k) as [b|] eqn:E; [|discriminate].
  simpl; eauto using encode_ok_encodable.
Qed.

Lemma encode_key_bind_raise (k : pystr) (r : result A) :
  ~ encodable k -> (_ <- encode_key k ;; r) = Raise UnicodeEncodeError.
Proof.
  intros H; unfold encode_key; rewrite encode_not_encodable; [reflexivity|].
  destruct (forallb is_scalar k) eqn:E; [|reflexivity].
  now apply encodable_forallb in E.
Qed.

End KeyFacts.

(** ** Point operations *)

Section PointFacts.

Variable V : Type.
Implicit Types (db : rdict V) (key : pystr).

Lemma db_get_absent db key : ~ has_key db key -> db_get db key = None.
Proof.
  unfold has_key; induction db as [|[k v] db IH]; simpl; intros H; auto.
  destruct (eqb k key) eqn:E.
  - apply eqb_eq in E; tauto.
  - apply IH; tauto.
Qed.

Lemma db_get_present db key v :
  keys_sorted db -> In (key, v) db -> db_get db key = Some v.
Proof.
  unfold keys_sorted; induction db as [|[k w] db IH]; simpl; intros Hs H;
    [tauto|].
  inversion Hs as [|? ? Hs' Hall]; subst.
  destruct H as [[= -> ->]|H].
  - now rewrite (proj2 (eqb_eq key key)).
  - destruct (eqb k key) eqn:E; [|auto].
    apply eqb_eq in E; subst k.
    rewrite Forall_forall in Hall.
    destruct (@lt_irrefl key); apply Hall.
    change key with (key_of (key, v)); now apply in_map.
Qed.

Lemma rdict_get_absent strict db key (default : option V) :
  Utf8.encodable key -> ~ has_key db key ->
  rdict_get strict db key default
  = if strict then Raise KeyError else Ok default.
Proof.
  intros He H; unfold rdict_get.
  now rewrite encode_key_bind, db_get_absent.
Qed.

Lemma rdict_get_present strict db key v (default : option V) :
  Utf8.encodable key -> keys_sorted db -> In (key, v) db ->
  rdict_get strict db key default = Ok (Some v).
Proof.
  intros He Hs H; unfold rdict_get.
  rewrite encode_key_bind by assumption.
  now rewrite (@db_get_present db key v Hs H).
Qed.

(** A key that cannot be encoded is not read: the exception of the store
    is not a [KeyError], and [get] lets it through. *)
Lemma get_not_encodable strict db key (default : option V) :
  ~ Utf8.encodable key ->
  get strict db key default = Raise UnicodeEncodeError.
Proof.
  intros H; unfold get, rdict_get; now rewrite encode_key_bind_raise.
Qed.

(** C7. Reading a key that is not in the store returns the default (none
    when no default is given) and raises nothing, whether the store hands
    back the default itself or raises [KeyError].  The key is a string
    that the store can encode. *)
Theorem get_absent_returns_default strict db key (default : option V) :
  Utf8.encodable key ->
  ~ has_key db key ->
  get strict db key default = Ok default /\
  get strict db key None = Ok None.
Proof.
  intros He H; unfold get; rewrite !rdict_get_absent by assumption.
  now destruct strict.
Qed.

Lemma db_delete_absent db key : ~ has_key db key -> db_delete db key = db.
Proof.
  unfold has_key; induction db as [|[k v] db IH]; simpl; intros H;
    [reflexivity|].
  destruct (eqb k key) eqn:E.
  - apply eqb_eq in E; tauto.
  - rewrite IH by tauto; reflexivity.
Qed.

(** C8. Deleting a key that is not in the store raises nothing and leaves
    the store as it was.  The key is a string that the store can encode. *)
Theorem delete_absent_noop db key :
  Utf8.encodable key ->
  ~ has_key db key -> delete db key = Ok db.
Proof.
  intros He H; unfold delete, rdict_delitem.
  now rewrite encode_key_bind, db_delete_absent.
Qed.

(** The order of the keys is kept by [put] and [delete], so that every
    store made from the empty one is in ascending key order. *)
Lemma db_put_keys db key (value : V) k :
  In k (map (@key_of V) (db_put db key value)) ->
  k = key \/ In k (map (@key_of V) db).
Proof.
  induction db as [|[k0 v0] db IH]; simpl; [intuition congruence|].
  destruct (compare key k0) eqn:E; simpl.
  - apply compare_eq in E; subst; intuition congruence.
  - intuition congruence.
  - intros [H|H]; auto; destruct (IH H); auto.
Qed.

Lemma db_put_sorted db key (value : V) :
  keys_sorted db -> keys_sorted (db_put db key value).
Proof.
  unfold keys_sorted; intros Hs.
  induction db as [|[k0 v0] db IH]; simpl; [repeat constructor|].
  inversion Hs as [|? ? Hs' Hall]; subst.
  destruct (compare key k0) eqn:E; simpl.
  - apply compare_eq in E; subst; now constructor.
  - constructor; [exact Hs|].
    constructor; [exact E|].
    eapply Forall_impl; [|exact Hall]; intros k; now apply lt_trans.
  - constructor; [auto|].
    apply Forall_forall; intros k Hk.
    apply db_put_keys in Hk as [->|Hk].
    + now apply gtb_lt; unfold gtb; rewrite E.
    + rewrite Forall_forall in Hall; auto.
Qed.

Lemma db_put_In db key (value : V) : In (key, value) (db_put db key value).
Proof.
  induction db as [|[k0 v0] db IH]; simpl; [auto|].
  destruct (compare key k0); simpl; auto.
Qed.

(** What [put] returns when it returns. *)
Lemma put_inv db key (value : V) db' :
  put db key value = Ok db' ->
  Utf8.encodable key /\ db' = db_put db key value.
Proof.
  unfold put, rdict_put; intros [He E]%encode_key_bind_inv.
  split; [exact He|]; now apply Ok_inj in E.
Qed.

Lemma put_encodable db key (value : V) :
  Utf8.encodable key -> put db key value = Ok (db_put db key value).
Proof. intros He; unfold put, rdict_put; now rewrite encode_key_bind. Qed.

Lemma put_sorted db key (value : V) db' :
  keys_sorted db -> put db key value = Ok db' -> keys_sorted db'.
Proof. intros Hs [_ ->]%put_inv; now apply db_put_sorted. Qed.

Lemma get_after_put strict db key (value : V) db' (default : option V) :
  keys_sorted db -> put db key value = Ok db' ->
  get strict db' key default = Ok (Some value).
Proof.
  intros Hs [He ->]%put_inv; unfold get.
  rewrite rdict_get_present with (v := value);
    auto using db_put_sorted, db_put_In.
Qed.

Lemma db_delete_keys db key k :
  In k (map (@key_of V) (db_delete db key)) -> In k (map (@key_of V) db).
Proof.
  induction db as [|[k0 v0] db IH]; simpl; [auto|].
  destruct (eqb k0 key); simpl; [auto|].
  intros [H|H]; auto.
Qed.

Lemma db_delete_sorted db key :
  keys_sorted db -> keys_sorted (db_delete db key).
Proof.
  unfold keys_sorted; induction db as [|[k0 v0] db IH]; simpl; intros Hs;
    [exact Hs|].
  inversion Hs as [|? ? Hs' Hall]; subst.
  destruct (eqb k0 key); [exact Hs'|].
  simpl; constructor; [now apply IH|].
  rewrite Forall_forall in *; intros k Hk.
  apply Hall; eapply db_delete_keys; eauto.
Qed.

Lemma db_delete_gone db key :
  keys_sorted db -> ~ has_key (db_delete db key) key.
Proof.
  unfold has_key, keys_sorted.
  induction db as [|[k0 v0] db IH]; simpl; intros Hs; [tauto|].
  inversion Hs as [|? ? Hs' Hall]; subst.
  destruct (eqb k0 key) eqn:E.
  - intros Hin; apply eqb_eq in E; subst k0.
    rewrite Forall_forall in Hall.
    exact (lt_irrefl (Hall _ Hin)).
  - simpl; intros [->|Hin].
    + now rewrite (proj2 (eqb_eq key key)) in E.
    + now apply IH.
Qed.

(** What [delete] returns when it returns. *)
Lemma delete_inv db key db' :
  delete db key = Ok db' -> Utf8.encodable key /\ db' = db_delete db key.
Proof.
  unfold delete, rdict_delitem; intros [He E]%encode_key_bind_inv.
  split; [exact He|]; now apply Ok_inj in E.
Qed.

Lemma delete_encodable db key :
  Utf8.encodable key -> delete db key = Ok (db_delete db key).
Proof.
  intros He; unfold delete, rdict_delitem; now rewrite encode_key_bind.
Qed.

Lemma delete_sorted db key db' :
  keys_sorted db -> delete db key = Ok db' -> keys_sorted db'.
Proof. intros Hs [_ ->]%delete_inv; now apply db_delete_sorted. Qed.

(** After [delete] the key is read as absent. *)
Lemma get_after_delete strict db key db' (default : option V) :
  keys_sorted db -> delete db key = Ok db' ->
  ~ has_key db' key /\ get strict db' key default = Ok default.
Proof.
  intros Hs [He ->]%delete_inv.
  assert (Hno : ~ has_key (db_delete db key) key)
    by now apply db_delete_gone.
  split; [exact Hno|].
  unfold get; rewrite rdict_get_absent by assumption; now destruct strict.
Qed.

End PointFacts.

(** ** Range iteration *)

Section IterFacts.

Variable V : Type.
Implicit Types (db l : list (entry V)) (key : pystr).

Lemma filter_drop_until (p q : entry V -> bool) l :
  (forall e, p e = false -> q e = false) ->
  filter q (drop_until p l) = filter q l.
Proof.
  intros Hpq; induction l as [|e l IH]; simpl; [reflexivity|].
  destruct (p e) eqn:E; [reflexivity|].
  now rewrite (Hpq e E).
Qed.

Lemma filter_none (q : entry V -> bool) l :
  Forall (fun e => q e = false) l -> filter q l = [].
Proof.
  induction 1 as [|e l He _ IH]; simpl; [reflexivity|].
  now rewrite He.
Qed.

Lemma sorted_snoc (R : pystr -> pystr -> Prop) (ks : list pystr) k :
  StronglySorted R ks -> Forall (fun k' => R k' k) ks ->
  StronglySorted R (ks ++ [k]).
Proof.
  induction 1 as [|k0 ks Hs IH Hk0]; simpl; intros Hall.
  - repeat constructor.
  - inversion Hall; subst; constructor; auto.
    apply Forall_app; split; auto.
Qed.

Lemma keys_sorted_rev db : keys_sorted db -> keys_descending (rev db).
Proof.
  unfold keys_sorted, keys_descending; rewrite map_rev.
  induction 1 as [|k ks Hs IH Hk]; simpl; [constructor|].
  apply sorted_snoc; auto.
  now apply Forall_rev.
Qed.

Lemma keys_sorted_filter (q : entry V -> bool) db :
  keys_sorted db -> keys_sorted (filter q db).
Proof.
  unfold keys_sorted; induction db as [|e db IH]; simpl; intros H; auto.
  inversion H as [|? ? Hs Hall]; subst.
  destruct (q e); simpl; auto.
  constructor; auto.
  rewrite Forall_forall in *; intros k [e' [<- [He' _]%filter_In]]%in_map_iff.
  apply Hall, in_map, He'.
Qed.

Lemma below_spec key bound :
  below key bound = true <-> exists b, bound = Some b /\ lt key b.
Proof.
  destruct bound as [b|]; simpl.
  - rewrite ltb_lt; split; [eauto|intros (? & [= <-] & ?); auto].
  - split; [discriminate|intros (? & ? & _); discriminate].
Qed.

Lemma at_or_above_spec key bound :
  at_or_above key bound = true <-> exists b, bound = Some b /\ le b key.
Proof.
  destruct bound as [b|]; simpl.
  - rewrite geb_le; split; [eauto|intros (? & [= <-] & ?); auto].
  - split; [discriminate|intros (? & ? & _); discriminate].
Qed.

Lemma below_mono key key' bound :
  lt key' key -> below key bound = true -> below key' bound = true.
Proof.
  rewrite !below_spec; intros H (b & -> & Hb); eauto using lt_trans.
Qed.

Lemma at_or_above_mono key key' bound :
  lt key key' -> at_or_above key bound = true ->
  at_or_above key' bound = true.
Proof.
  rewrite !at_or_above_spec; intros H (b & -> & Hb).
  exists b; split; auto.
  apply le_lteq; left; eauto using le_lt_trans.
Qed.

(** The forward loop over ascending entries keeps the entries in range,
    when these pass the prefix test. *)
Lemma iter_loop_forward prefix start end_ l :
  range_hits prefix start end_ l -> keys_sorted l ->
  iter_loop prefix start end_ false l = filter (within start end_) l.
Proof.
  unfold keys_sorted, range_hits.
  induction l as [|[k v] l IH]; simpl; intros Hmiss Hs; [reflexivity|].
  inversion Hs as [|? ? Hs' Hall]; subst.
  inversion Hmiss as [|? ? Hk Hmiss']; subst.
  unfold within at 1 in Hk; unfold within at 1; unfold in_range in *.
  simpl in *.
  destruct (at_or_above k end_) eqn:Ehi.
  - rewrite andb_false_r; symmetry; apply filter_none.
    rewrite Forall_forall in *; intros e He.
    unfold within, in_range.
    rewrite (@at_or_above_mono k (key_of e) end_); auto.
    + apply andb_false_r.
    + apply Hall, in_map, He.
  - rewrite andb_true_r in *.
    destruct (below k start); simpl in *; [auto|].
    rewrite Hk by reflexivity; f_equal; auto.
Qed.

(** The same for the backward loop over descending entries. *)
Lemma iter_loop_backward prefix start end_ l :
  range_hits prefix start end_ l -> keys_descending l ->
  iter_loop prefix start end_ true l = filter (within start end_) l.
Proof.
  unfold keys_descending, range_hits.
  induction l as [|[k v] l IH]; simpl; intros Hmiss Hs; [reflexivity|].
  inversion Hs as [|? ? Hs' Hall]; subst.
  inversion Hmiss as [|? ? Hk Hmiss']; subst.
  unfold within at 1 in Hk; unfold within at 1; unfold in_range in *.
  simpl in *.
  destruct (below k start) eqn:Elo; simpl in *.
  - symmetry; apply filter_none.
    rewrite Forall_forall in *; intros e He.
    unfold within, in_range.
    rewrite (@below_mono k (key_of e) start); auto.
    apply Hall, in_map, He.
  - destruct (at_or_above k end_); simpl in *; [auto|].
    rewrite Hk by reflexivity; f_equal; auto.
Qed.

Lemma sorted_drop_until (R : pystr -> pystr -> Prop)
      (p : entry V -> bool) l :
  StronglySorted R (map (@key_of V) l) ->
  StronglySorted R (map (@key_of V) (drop_until p l)).
Proof.
  induction l as [|e l IH]; simpl; intros Hs; [constructor|].
  destruct (p e); [exact Hs|].
  inversion Hs; subst; auto.
Qed.

Lemma Forall_drop_until (P : entry V -> Prop) (p : entry V -> bool) l :
  Forall P l -> Forall P (drop_until p l).
Proof.
  induction 1 as [|e l He Hl IH]; simpl; [constructor|].
  destruct (p e); auto.
Qed.

Lemma no_miss_range_hits prefix start end_ l :
  Forall (fun e : entry V => prefix_miss prefix (key_of e) = false) l ->
  range_hits prefix start end_ l.
Proof. apply Forall_impl; auto. Qed.

Lemma no_prefix_range_hits prefix start end_ l :
  is_prefixed prefix = false -> range_hits prefix start end_ l.
Proof.
  intros Hp; apply Forall_forall; intros e _ _.
  destruct prefix as [[|]|]; easy.
Qed.

(** *** The seeks of [iter] *)

Lemma bound_ok_seek db s :
  bound_ok (Some s) -> seek db s = Ok (first_at_or_past db s).
Proof. intros H; unfold seek; now rewrite encode_key_bind. Qed.

Lemma bound_ok_seek_for_prev db e :
  bound_ok (Some e) -> seek_for_prev db e = Ok (last_at_or_before db e).
Proof. intros H; unfold seek_for_prev; now rewrite encode_key_bind. Qed.

Lemma first_seek_ok db lo hi reverse :
  seeks_ok reverse lo hi ->
  first_seek db lo hi reverse = Ok (first_position db lo hi reverse).
Proof.
  intros [Hlo Hhi]; unfold first_seek, first_position.
  destruct reverse.
  - destruct hi as [e|]; [|reflexivity].
    now apply bound_ok_seek_for_prev, Hhi.
  - destruct lo as [s|]; [|reflexivity].
    now apply bound_ok_seek.
Qed.

Lemma first_seek_inv db lo hi reverse it :
  first_seek db lo hi reverse = Ok it ->
  it = first_position db lo hi reverse.
Proof.
  unfold first_seek, first_position, seek, seek_for_prev.
  destruct reverse.
  - destruct hi as [e|]; [|now intros <-%Ok_inj].
    now intros [_ <-%Ok_inj]%encode_key_bind_inv.
  - destruct lo as [s|]; [|now intros <-%Ok_inj].
    now intros [_ <-%Ok_inj]%encode_key_bind_inv.
Qed.

(** When the bounds that are sought can be encoded, [iter] returns what
    its loop yields from the first position. *)
Lemma iter_returns db prefix start end_ reverse s e lo hi :
  prefix_bounds prefix start end_ = Ok (s, e) ->
  swap_bounds reverse (s, e) = (lo, hi) ->
  seeks_ok reverse lo hi ->
  iter db prefix start end_ reverse
  = Ok (iter_loop prefix lo hi reverse (first_position db lo hi reverse)).
Proof.
  intros Hb Hsw Hok; unfold iter; rewrite Hb; cbn [bind].
  rewrite Hsw, (first_seek_ok db Hok); cbn [bind].
  destruct (first_position db lo hi reverse) as [|x it]; [|reflexivity].
  cbn [it_valid negb iter_loop].
  destruct reverse; [|reflexivity].
  destruct lo as [lo|]; [|reflexivity].
  now rewrite bound_ok_seek_for_prev by apply Hok.
Qed.

(** When [iter] returns, it returns what its loop yields from the first
    position. *)
Lemma iter_inv db prefix start end_ reverse l :
  iter db prefix start end_ reverse = Ok l ->
  exists s e lo hi,
    prefix_bounds prefix start end_ = Ok (s, e) /\
    swap_bounds reverse (s, e) = (lo, hi) /\
    l = iter_loop prefix lo hi reverse (first_position db lo hi reverse).
Proof.
  unfold iter.
  destruct (prefix_bounds prefix start end_) as [[s e]|]; cbn [bind];
    [|discriminate].
  destruct (swap_bounds reverse (s, e)) as [lo hi] eqn:Hsw.
  destruct (first_seek db lo hi reverse) as [it|] eqn:Hit; cbn [bind];
    [|discriminate].
  apply first_seek_inv in Hit; subst it.
  intros H; exists s, e, lo, hi; split; [reflexivity|split; [exact Hsw|]].
  destruct (first_position db lo hi reverse) as [|x it];
    [|now apply Ok_inj in H].
  cbn [it_valid negb iter_loop] in *.
  destruct reverse; [|now apply Ok_inj in H].
  destruct lo as [lo|]; [|now apply Ok_inj in H].
  destruct (seek_for_prev db lo); [|discriminate].
  now apply Ok_inj in H.
Qed.

(** Forward iteration between the bounds that [iter] works out, when the
    entries between them pass the prefix test. *)
Lemma iter_forward_bounds db prefix start end_ lo hi :
  prefix_bounds prefix start end_ = Ok (lo, hi) ->
  bound_ok lo ->
  range_hits prefix lo hi db ->
  keys_sorted db ->
  iter db prefix start end_ false = Ok (filter (within lo hi) db).
Proof.
  intros Hb Hok Hmiss Hs.
  rewrite (@iter_returns db prefix start end_ false lo hi lo hi Hb eq_refl)
    by (split; [exact Hok|discriminate]).
  f_equal; unfold first_position.
  destruct lo as [s|]; [|now apply iter_loop_forward].
  unfold first_at_or_past; rewrite iter_loop_forward.
  - apply filter_drop_until; intros e He.
    unfold within, in_range; simpl.
    unfold geb in He; now destruct (ltb (key_of e) s).
  - now apply Forall_drop_until.
  - now apply sorted_drop_until.
Qed.

(** Backward iteration likewise. *)
Lemma iter_backward_bounds db prefix start end_ s e lo hi :
  prefix_bounds prefix start end_ = Ok (s, e) ->
  swap_bounds true (s, e) = (lo, hi) ->
  bound_ok lo -> bound_ok hi ->
  range_hits prefix lo hi db ->
  keys_sorted db ->
  iter db prefix start end_ true = Ok (rev (filter (within lo hi) db)).
Proof.
  intros Hb Hsw Hlo Hhi Hmiss Hs.
  rewrite (@iter_returns db prefix start end_ true s e lo hi Hb Hsw)
    by (split; auto).
  f_equal; unfold first_position.
  rewrite <- filter_rev.
  apply keys_sorted_rev in Hs.
  assert (Hmiss' : range_hits prefix lo hi (rev db))
    by now apply Forall_rev.
  destruct hi as [h|]; [|now apply iter_loop_backward].
  unfold last_at_or_before; rewrite iter_loop_backward.
  - apply filter_drop_until; intros e' He.
    unfold within, in_range; simpl.
    unfold leb in He; apply negb_false_iff, gtb_lt in He.
    assert (geb (key_of e') h = true) as ->
        by (apply geb_le, le_lteq; auto).
    apply andb_false_r.
  - now apply Forall_drop_until.
  - now apply sorted_drop_until.
Qed.

(** Forward iteration without a prefix. *)
Lemma iter_forward_filter db prefix start end_ :
  is_prefixed prefix = false -> keys_sorted db -> bound_ok start ->
  iter db prefix start end_ false = Ok (filter (within start end_) db).
Proof.
  intros Hp Hs Hok; apply iter_forward_bounds; auto.
  - destruct prefix as [[|]|]; easy.
  - now apply no_prefix_range_hits.
Qed.

(** Backward iteration without a prefix. *)
Lemma iter_backward_filter db prefix start end_ lo hi :
  is_prefixed prefix = false -> keys_sorted db ->
  swap_bounds true (start, end_) = (lo, hi) ->
  bound_ok lo -> bound_ok hi ->
  iter db prefix start end_ true = Ok (rev (filter (within lo hi) db)).
Proof.
  intros Hp Hs Hsw Hlo Hhi.
  apply iter_backward_bounds with (s := start) (e := end_); auto.
  - destruct prefix as [[|]|]; easy.
  - now apply no_prefix_range_hits.
Qed.

Lemma in_range_spec start end_ key :
  in_range start end_ key = true <-> key_in_range start end_ key.
Proof.
  unfold in_range, key_in_range.
  rewrite andb_true_iff, !negb_true_iff.
  destruct start as [s|], end_ as [t|]; simpl;
    rewrite ?ltb_false_le; unfold geb; rewrite ?negb_false_iff, ?ltb_lt;
    (split; [intros [H1 H2]; split; [intros ? [= <-]|intros ? [= <-]]; auto
            |intros [H1 H2]; split; auto]).
Qed.

Lemma in_filter_within start end_ db (e : entry V) :
  In e (filter (within start end_) db)
  <-> In e db /\ key_in_range start end_ (key_of e).
Proof. now rewrite filter_In; unfold within; rewrite in_range_spec. Qed.

(** A bound that cannot be encoded: the forward iteration raises at its
    first seek. *)
Lemma iter_forward_start_not_encodable db start end_ :
  ~ Utf8.encodable start ->
  iter db None (Some start) end_ false = Raise UnicodeEncodeError.
Proof.
  intros H; unfold iter; cbn [prefix_bounds bind swap_bounds first_seek].
  unfold seek; now rewrite encode_key_bind_raise.
Qed.

(** C2. Forward iteration between [start] and [end_] (each may be left
    out) returns the stored pairs whose keys satisfy
    [start <= key < end_], in ascending key order; [items] returns the
    same list.  The start bound, which the iterator seeks, is a string
    that the store can encode. *)
Theorem iter_forward_half_open db start end_ :
  keys_sorted db ->
  bound_ok start ->
  exists l,
    iter db None start end_ false = Ok l /\
    items db None start end_ false None = Ok l /\
    keys_sorted l /\
    forall e, In e l <-> In e db /\ key_in_range start end_ (key_of e).
Proof.
  intros Hs Hok; exists (filter (within start end_) db).
  assert (H : iter db None start end_ false
              = Ok (filter (within start end_) db))
    by now apply iter_forward_filter.
  split; [exact H|].
  split; [exact H|].
  split; [now apply keys_sorted_filter|].
  intros e; apply in_filter_within.
Qed.

(** C3. Reverse iteration called with [start > end_] swaps the two
    bounds: it returns the pairs of the forward iteration over
    [low <= key < high], where [low] is the smaller bound, in descending
    key order.  The two bounds are strings that the store can encode. *)
Theorem iter_reverse_swaps_bounds db low high :
  keys_sorted db ->
  Utf8.encodable low -> Utf8.encodable high ->
  lt low high ->
  exists l,
    iter db None (Some low) (Some high) false = Ok l /\
    iter db None (Some high) (Some low) true = Ok (rev l) /\
    keys_descending (rev l) /\
    forall e, In e (rev l)
              <-> In e db /\ le low (key_of e) /\ lt (key_of e) high.
Proof.
  intros Hs Hlow Hhigh Hlt.
  exists (filter (within (Some low) (Some high)) db).
  split; [now apply iter_forward_filter|].
  split.
  - apply iter_backward_filter; auto.
    simpl; now rewrite (proj2 (gtb_lt high low) Hlt).
  - split; [auto using keys_sorted_rev, keys_sorted_filter|].
    intros e; rewrite <- in_rev, in_filter_within.
    unfold key_in_range; split.
    + intros (? & H1 & H2); auto.
    + intros (? & H1 & H2); repeat split; auto; now intros ? [= <-].
Qed.

(** Under a non-empty prefix the loop yields nothing but keys that start
    with it. *)
Lemma iter_loop_prefix p start end_ reverse (it : rdict_iter V) :
  p <> [] ->
  Forall (fun e => startswith (key_of e) p = true)
         (iter_loop (Some p) start end_ reverse it).
Proof.
  intros Hp; induction it as [|[k v] it IH]; cbn [iter_loop];
    [constructor|].
  assert (Hmiss : prefix_miss (Some p) k = negb (startswith k p))
    by (destruct p; [congruence|reflexivity]).
  rewrite Hmiss.
  destruct reverse.
  - destruct (below k start); [constructor|].
    destruct (at_or_above k end_); [exact IH|].
    destruct (startswith k p) eqn:E; cbn [negb].
    + constructor; auto.
    + destruct (prefix_passed _ _ _); [constructor|exact IH].
  - destruct (at_or_above k end_); [constructor|].
    destruct (below k start); [exact IH|].
    destruct (startswith k p) eqn:E; cbn [negb].
    + constructor; auto.
    + destruct (prefix_passed _ _ _); [constructor|exact IH].
Qed.

(** C9. With a non-empty prefix, every pair that [iter] yields has a key
    that starts with the prefix, in both directions and for all bounds
    and store contents. *)
Theorem iter_yields_prefixed_keys db p start end_ reverse l :
  p <> [] ->
  iter db (Some p) start end_ reverse = Ok l ->
  Forall (fun e => startswith (key_of e) p = true) l.
Proof.
  intros Hp (s & e & lo & hi & _ & _ & ->)%iter_inv.
  now apply iter_loop_prefix.
Qed.

Lemma drop_until_incl (p : entry V -> bool) l : incl (drop_until p l) l.
Proof.
  induction l as [|e l IH]; simpl; [apply incl_refl|].
  destruct (p e); [apply incl_refl|now apply incl_tl].
Qed.

Lemma iter_loop_incl prefix start end_ reverse (it : rdict_iter V) :
  incl (iter_loop prefix start end_ reverse it) it.
Proof.
  induction it as [|[k v] it IH]; cbn [iter_loop]; [apply incl_refl|].
  repeat match goal with
         | |- incl (if ?b then _ else _) _ => destruct b
         end;
    auto using incl_nil_l, incl_tl, incl_cons, in_eq.
Qed.

(** Whatever the arguments, [iter] yields stored pairs only. *)
Lemma iter_incl db prefix start end_ reverse l :
  iter db prefix start end_ reverse = Ok l -> incl l db.
Proof.
  intros (s & e & lo & hi & _ & _ & ->)%iter_inv.
  eapply incl_tran; [apply iter_loop_incl|].
  unfold first_position; destruct reverse.
  - destruct hi; unfold last_at_or_before, seek_to_last;
      [eapply incl_tran; [apply drop_until_incl|]|];
      intros x; now rewrite <- in_rev.
  - destruct lo; [apply drop_until_incl|apply incl_refl].
Qed.

End IterFacts.

(** ** The upper bound derived from a prefix *)

Section PrefixBound.

Lemma prefix_upper_cons a (p : pystr) :
  p <> [] ->
  prefix_upper (a :: p) = (u <- prefix_upper p ;; Ok (a :: u)).
Proof.
  unfold prefix_upper, init, last_char; intros Hp.
  destruct p as [|b p]; [congruence|].
  cbn [last removelast].
  destruct (chr _); reflexivity.
Qed.

Lemma prefix_upper_single a :
  prefix_upper [a] = if a + 1 <=? max_code_point then Ok [a + 1]
                     else Raise ValueError.
Proof.
  unfold prefix_upper, chr, init, last_char; simpl.
  now destruct (a + 1 <=? max_code_point).
Qed.

(** Every string that starts with [p] is below the bound. *)
Lemma prefix_upper_above (p u s : pystr) :
  p <> [] -> prefix_upper p = Ok u -> startswith s p = true -> lt s u.
Proof.
  revert u s; induction p as [|a p IH]; intros u s Hp; [congruence|].
  destruct s as [|x s]; [discriminate|].
  simpl; rewrite andb_true_iff, N.eqb_eq; intros Hu [-> Hs].
  destruct p as [|b p].
  - rewrite prefix_upper_single in Hu.
    destruct (_ <=? _); [|discriminate].
    injection Hu as <-; unfold lt; simpl.
    now assert (a < a + 1) as ->%N.compare_lt_iff by lia.
  - rewrite prefix_upper_cons in Hu by discriminate.
    destruct (prefix_upper (b :: p)) as [u'|] eqn:E; [|discriminate].
    injection Hu as <-; unfold lt; simpl.
    rewrite N.compare_refl; apply IH; auto; discriminate.
Qed.

(** A string strictly between [p] and the bound starts with [p]. *)
Lemma prefix_upper_between (p u x : pystr) :
  p <> [] -> prefix_upper p = Ok u ->
  le p x -> lt x u -> startswith x p = true.
Proof.
  revert u x; induction p as [|a p IH]; intros u x Hp Hu; [congruence|].
  destruct p as [|b p].
  - rewrite prefix_upper_single in Hu.
    destruct (_ <=? _); [|discriminate].
    injection Hu as <-; destruct x as [|y x]; unfold le, lt; simpl;
      [congruence|].
    destruct (N.compare_spec a y) as [E|L|G]; try congruence; subst.
    + rewrite N.eqb_refl; now destruct x.
    + destruct (N.compare_spec y (a + 1)) as [E'|L'|G'];
        try discriminate; try lia.
      subst; now destruct x.
  - rewrite prefix_upper_cons in Hu by discriminate.
    destruct (prefix_upper (b :: p)) as [u'|] eqn:E; [|discriminate].
    injection Hu as <-; destruct x as [|y x]; unfold le, lt;
      cbn [compare startswith]; [congruence|].
    destruct (N.compare_spec a y) as [Ea|La|Ga]; try congruence; subst.
    + rewrite N.compare_refl, N.eqb_refl; intros H1 H2.
      apply (IH u'); auto; discriminate.
    + assert ((y ?= a) = Gt) as -> by (apply N.compare_gt_iff; lia).
      discriminate.
Qed.

(** For a prefix whose last character is not the largest one, the bound
    is the least string above all strings that start with the prefix. *)
Lemma prefix_upper_least (p : pystr) :
  p <> [] -> last_char p < max_code_point ->
  exists u,
    prefix_upper p = Ok u /\
    (forall s, startswith s p = true -> lt s u) /\
    (forall x, (forall s, startswith s p = true -> lt s x) -> le u x).
Proof.
  intros Hp Hlast.
  assert (Hu : prefix_upper p = Ok (init p ++ [last_char p + 1])).
  { unfold prefix_upper, chr.
    assert ((last_char p + 1 <=? max_code_point) = true) as ->
        by (apply N.leb_le; lia).
    reflexivity. }
  eexists; split; [exact Hu|split].
  - intros s; now apply prefix_upper_above.
  - intros x Hx; apply le_not_lt; intros Hlt.
    assert (Hpx : lt p x)
      by (apply Hx, startswith_app; exists []; now rewrite app_nil_r).
    assert (Hsw : startswith x p = true).
    { apply (prefix_upper_between Hp Hu); auto.
      apply le_lteq; now left. }
    exact (lt_irrefl (Hx x Hsw)).
Qed.

Lemma startswith_refl (p : pystr) : startswith p p = true.
Proof. apply startswith_app; exists []; now rewrite app_nil_r. Qed.

Lemma prefix_upper_value (p : pystr) :
  last_char p < max_code_point ->
  prefix_upper p = Ok (init p ++ [last_char p + 1]).
Proof.
  intros Hlast; unfold prefix_upper, chr.
  assert ((last_char p + 1 <=? max_code_point) = true) as ->
      by (apply N.leb_le; lia).
  reflexivity.
Qed.

(** The bound can be encoded when the prefix can, unless its last
    character is the one before the surrogates, U+D7FF. *)
Lemma prefix_upper_encodable (p : pystr) :
  p <> [] -> Utf8.encodable p ->
  last_char p < max_code_point -> last_char p <> 55295 ->
  Utf8.encodable (init p ++ [last_char p + 1]).
Proof.
  intros Hp He Hlast Hsur.
  unfold init, last_char in *.
  rewrite (app_removelast_last 0 Hp) in He.
  apply encodable_app in He as [Hinit Hl]; apply encodable_app.
  split; [exact Hinit|].
  inversion Hl as [|? ? Hc _]; subst; repeat constructor.
  revert Hc Hlast Hsur; generalize (last p 0); intros c.
  unfold Utf8.is_scalar, Utf8.is_surrogate, max_code_point.
  rewrite !andb_true_iff, !negb_true_iff, !andb_false_iff, !N.leb_le,
    !N.leb_gt; lia.
Qed.

(** With a prefix and no other bound, iteration returns the stored pairs
    whose keys start with the prefix, in the order asked for.  Going down
    the iterator seeks the derived bound, which cannot be encoded when the
    prefix ends with U+D7FF. *)
Lemma iter_prefix_exact (V : Type) (db : rdict V) (p : pystr)
      (reverse : bool) :
  p <> [] -> last_char p < max_code_point -> keys_sorted db ->
  Utf8.encodable p -> (reverse = true -> last_char p <> 55295) ->
  iter db (Some p) None None reverse
  = Ok ((if reverse then @rev (entry V) else fun l => l)
          (filter (fun e => startswith (key_of e) p) db)).
Proof.
  intros Hp Hlast Hs He Hsur.
  destruct (prefix_upper_least Hp Hlast) as (u & Hu & Hup & _).
  assert (Hb : prefix_bounds (Some p) None None = Ok (Some p, Some u)).
  { unfold prefix_bounds; destruct p; [congruence|]; now rewrite Hu. }
  assert (Hin : forall e : entry V,
             within (Some p) (Some u) e = startswith (key_of e) p).
  { intros e; unfold within, in_range; simpl.
    destruct (startswith (key_of e) p) eqn:Esw.
    - apply andb_true_iff; split; apply negb_true_iff.
      + apply ltb_false_le.
        apply startswith_app in Esw as [t ->]; apply le_app.
      + apply negb_false_iff, ltb_lt, Hup, Esw.
    - destruct (ltb (key_of e) p) eqn:Elo; [reflexivity|]; simpl.
      unfold geb; destruct (ltb (key_of e) u) eqn:Ehi; [|reflexivity].
      rewrite (prefix_upper_between Hp Hu) in Esw; [discriminate| |].
      + now apply ltb_false_le.
      + now apply ltb_lt. }
  assert (Hhits : range_hits (Some p) (Some p) (Some u) db).
  { apply Forall_forall; intros e _; rewrite Hin; intros Hsw.
    destruct p; [congruence|]; simpl; now rewrite Hsw. }
  rewrite <- (filter_ext _ _ Hin).
  destruct reverse.
  - apply iter_backward_bounds with (s := Some p) (e := Some u); auto.
    + assert (Hpu : compare p u = Lt) by apply Hup, startswith_refl.
      unfold swap_bounds, gtb; now rewrite Hpu.
    + rewrite prefix_upper_value in Hu by assumption.
      apply Ok_inj in Hu; subst u.
      now apply prefix_upper_encodable; auto.
  - now apply iter_forward_bounds.
Qed.

(** When the last character of the prefix is the largest code point,
    [chr] raises and so does the iteration. *)
Lemma iter_prefix_max_char_raises (V : Type) (db : rdict V)
      (q : pystr) (start : option pystr) (reverse : bool) :
  iter db (Some (q ++ [max_code_point])) start None reverse
  = Raise ValueError.
Proof.
  unfold iter.
  assert (prefix_upper (q ++ [max_code_point]) = Raise ValueError) as E.
  { unfold prefix_upper, last_char; now rewrite last_last. }
  unfold prefix_bounds.
  destruct (q ++ [max_code_point]) eqn:Eq;
    [now destruct q|].
  now rewrite E.
Qed.

(** C4, as the code has it.  For a non-empty prefix whose last character is
    not the largest code point, iteration without an [end] is iteration
    with the derived bound as [end], the exclusive upper bound: the prefix
    with its last character incremented.  This bound is the least string
    above every string that starts with the prefix.  For a prefix whose
    last character is the largest code point there is no fallback: the
    iteration raises [ValueError].  Both hold in both directions, for
    every [start] and every store. *)
Theorem prefix_upper_bound_derived (V : Type) (db : rdict V) (p : pystr)
        (start : option pystr) (reverse : bool) :
  p <> [] ->
  (last_char p < max_code_point ->
   exists u,
     u = init p ++ [last_char p + 1] /\
     iter db (Some p) start None reverse
     = iter db (Some p) start (Some u) reverse /\
     (forall s, startswith s p = true -> lt s u) /\
     (forall x, (forall s, startswith s p = true -> lt s x) -> le u x)) /\
  (last_char p = max_code_point ->
   iter db (Some p) start None reverse = Raise ValueError).
Proof.
  intros Hp; split.
  - intros Hlast.
    destruct (prefix_upper_least Hp Hlast) as (u & Hu & Hup & Hleast).
    assert (Eu : u = init p ++ [last_char p + 1]).
    { rewrite prefix_upper_value in Hu by assumption.
      now apply Ok_inj in Hu. }
    exists u; split; [exact Eu|].
    split; [|split; [exact Hup|exact Hleast]].
    unfold iter, prefix_bounds; destruct p; [congruence|].
    now rewrite Hu.
  - intros Hlast; unfold last_char in Hlast.
    rewrite (app_removelast_last 0 Hp), Hlast.
    apply iter_prefix_max_char_raises.
Qed.

End PrefixBound.

(** ** URL-safe base64 and its inverse *)

Module Base64Facts.
Import Base64.

Lemma list_ind3 (A : Type) (P : list A -> Prop) :
  P [] -> (forall x, P [x]) -> (forall x y, P [x; y]) ->
  (forall x y z l, P l -> P (x :: y :: z :: l)) ->
  forall l, P l.
Proof.
  intros H0 H1 H2 H3 l.
  enough (P l /\ (forall x, P (x :: l)) /\ (forall x y, P (x :: y :: l)))
    by tauto.
  induction l as [|a l (IH0 & IH1 & IH2)]; auto.
Qed.

Lemma b2a_ascii x : b2a x < 128.
Proof.
  unfold b2a.
  repeat match goal with
         | |- context [?a <? ?b] => destruct (N.ltb_spec a b)
         | |- context [?a =? ?b] => destruct (N.eqb_spec a b)
         end; lia.
Qed.

Lemma b2a_not_pad x : (urlsafe_translate (b2a x) =? pad) = false.
Proof.
  unfold b2a, urlsafe_translate, pad; apply N.eqb_neq.
  repeat match goal with
         | |- context [?a <? ?b] => destruct (N.ltb_spec a b)
         | |- context [?a =? ?b] => destruct (N.eqb_spec a b)
         end; lia.
Qed.

(** The decoding table inverts the alphabet. *)
Lemma a2b_b2a x : x < 64 -> a2b (urlsafe_translate (b2a x)) = Some x.
Proof.
  intros Hx; unfold b2a.
  destruct (N.ltb_spec x 26);
    [|destruct (N.ltb_spec x 52);
      [|destruct (N.ltb_spec x 62); [|destruct (N.eqb_spec x 62)]]];
    unfold urlsafe_translate, a2b; settle_tests; cbn [andb];
    f_equal; lia.
Qed.

Lemma a2b_base64_data x s quad_pos leftchar pads out :
  x < 64 ->
  a2b_base64 (urlsafe_translate (b2a x) :: s) quad_pos leftchar pads out =
    if quad_pos =? 0 then a2b_base64 s 1 x 0 out
    else if quad_pos =? 1 then
      a2b_base64 s 2 (x mod 16) 0 ((leftchar * 4 + x / 16) :: out)
    else if quad_pos =? 2 then
      a2b_base64 s 3 (x mod 4) 0 ((leftchar * 16 + x / 4) :: out)
    else
      a2b_base64 s 0 0 0 ((leftchar * 64 + x) :: out).
Proof.
  intros Hx; cbn [a2b_base64].
  now rewrite b2a_not_pad, a2b_b2a.
Qed.

Lemma a2b_base64_pad s quad_pos leftchar pads out :
  a2b_base64 (pad :: s) quad_pos leftchar pads out =
    if (2 <=? quad_pos) && (4 <=? quad_pos + (pads + 1))
    then Ok (rev out)
    else a2b_base64 s quad_pos leftchar
           (if 2 <=? quad_pos then pads + 1 else pads) out.
Proof. reflexivity. Qed.

Lemma a2b_base64_encode b :
  Forall (fun x => x < 256) b ->
  forall out,
    a2b_base64 (map urlsafe_translate (urlsafe_b64encode b)) 0 0 0 out
    = Ok (rev out ++ b).
Proof.
  induction b as [|x|x y|x y z b IH] using list_ind3; intros Hb out.
  - simpl; now rewrite app_nil_r.
  - inversion Hb as [|? ? Hx _]; subst.
    cbn [urlsafe_b64encode map].
    rewrite !a2b_base64_data by dlia; cbn [N.eqb Pos.eqb].
    change (urlsafe_translate pad) with pad.
    rewrite !a2b_base64_pad; settle_tests; cbn [andb rev app].
    repeat f_equal; dlia.
  - inversion Hb as [|? ? Hx Hb']; subst.
    inversion Hb' as [|? ? Hy _]; subst.
    cbn [urlsafe_b64encode map].
    rewrite !a2b_base64_data by dlia; cbn [N.eqb Pos.eqb].
    change (urlsafe_translate pad) with pad.
    rewrite !a2b_base64_pad; settle_tests; cbn [andb rev app].
    rewrite <- app_assoc; cbn [app].
    repeat f_equal; dlia.
  - inversion Hb as [|? ? Hx Hb']; subst.
    inversion Hb' as [|? ? Hy Hb'']; subst.
    inversion Hb'' as [|? ? Hz Hb3]; subst.
    cbn [urlsafe_b64encode map].
    rewrite !a2b_base64_data by dlia; cbn [N.eqb Pos.eqb].
    rewrite IH by assumption.
    cbn [rev]; rewrite <- !app_assoc; cbn [app].
    repeat f_equal; dlia.
Qed.

(** [urlsafe_b64decode] undoes [urlsafe_b64encode]. *)
Lemma urlsafe_b64decode_encode b :
  Forall (fun x => x < 256) b ->
  urlsafe_b64decode (urlsafe_b64encode b) = Ok b.
Proof.
  intros Hb; unfold urlsafe_b64decode.
  now rewrite a2b_base64_encode.
Qed.

Lemma urlsafe_b64encode_ascii b :
  Forall (fun x => x < 128) (urlsafe_b64encode b).
Proof.
  induction b as [|x|x y|x y z b IH] using list_ind3; simpl;
    repeat (apply Forall_cons; [first [apply b2a_ascii|reflexivity]|]);
    auto.
Qed.

Lemma urlsafe_b64encode_nonempty b :
  b <> [] -> urlsafe_b64encode b <> [].
Proof. destruct b as [|x [|y [|z b]]]; simpl; congruence. Qed.

End Base64Facts.

(** ** The cursor *)

Section CursorFacts.

Import Utf8 Utf8Facts Base64 Base64Facts.

(** The cursor of an encodable key decodes to the key followed by the
    character 0. *)
Lemma decode_encode_cursor (k : pystr) :
  encodable k ->
  exists c, _encode_cursor k = Ok c /\ _decode_cursor c = Ok (k ++ [0])
            /\ (k <> [] -> c <> []).
Proof.
  intros Hk; destruct (encode_encodable Hk) as (b & Eb & Hb & Hne).
  exists (urlsafe_b64encode b).
  unfold _encode_cursor, _decode_cursor; rewrite Eb; simpl.
  rewrite decode_ascii by apply urlsafe_b64encode_ascii.
  rewrite encode_ascii by apply urlsafe_b64encode_ascii; simpl.
  rewrite urlsafe_b64decode_encode by assumption; simpl.
  rewrite (decode_encode _ Eb); simpl.
  repeat split; auto.
  intros H; now apply urlsafe_b64encode_nonempty, Hne.
Qed.

Lemma encode_cursor_ok_encodable k c : _encode_cursor k = Ok c -> encodable k.
Proof.
  unfold _encode_cursor.
  destruct (encode k) as [b|] eqn:E; [|discriminate].
  intros _; eauto using encode_ok_encodable.
Qed.

(** [k] is below [k + '\0'], and nothing lies strictly between them. *)
Lemma lt_succ (k : pystr) : lt k (k ++ [0]).
Proof.
  unfold lt; induction k as [|x k IH]; simpl; [reflexivity|].
  now rewrite N.compare_refl.
Qed.

Lemma le_succ_iff (k x : pystr) : le (k ++ [0]) x <-> lt k x.
Proof.
  unfold le, lt; revert x; induction k as [|a k IH]; intros [|y x]; simpl.
  - split; congruence.
  - destruct y as [|y]; simpl; [|split; congruence].
    destruct x; simpl; split; congruence.
  - split; congruence.
  - destruct (a ?= y); [apply IH|split; congruence..].
Qed.

End CursorFacts.

(** ** Pagination *)

Section PaginateFacts.

Variable V : Type.
Implicit Types (db l : list (entry V)) (key : pystr) (r : page V).

(** [islice] with a limit that it accepts. *)
Lemma islice_list_ok (A : Type) (gen : result (list A)) (n : Z)
      (all : list A) :
  (0 < n <= sys_maxsize)%Z -> gen = Ok all ->
  islice_list gen (Some n) = Ok (firstn (Z.to_nat n) all).
Proof.
  intros Hn ->; unfold islice_list.
  destruct (Z.ltb_spec n 0); [lia|].
  destruct (Z.ltb_spec sys_maxsize n); [lia|].
  destruct (Z.eqb_spec n 0); [lia|reflexivity].
Qed.

(** What [islice] has done when it returns. *)
Lemma islice_list_inv (A : Type) (gen : result (list A)) (n : Z)
      (l : list A) :
  islice_list gen (Some n) = Ok l ->
  (0 <= n <= sys_maxsize)%Z /\
  (n = 0%Z /\ l = [] \/
   exists all, gen = Ok all /\ l = firstn (Z.to_nat n) all).
Proof.
  unfold islice_list.
  destruct (Z.ltb_spec n 0); [discriminate|].
  destruct (Z.ltb_spec sys_maxsize n); [discriminate|]; cbn [orb].
  split; [lia|].
  destruct (Z.eqb_spec n 0); [left; split; [easy|now apply Ok_inj in H1]|].
  destruct gen as [all|]; [|discriminate].
  right; exists all; split; [reflexivity|now apply Ok_inj in H1].
Qed.

Lemma items_limit_length db prefix start end_ reverse (n : Z) l :
  items db prefix start end_ reverse (Some n) = Ok l ->
  (Z.of_nat (length l) <= n)%Z.
Proof.
  unfold items; intros [Hn [[-> ->]|(all & _ & ->)]]%islice_list_inv.
  - simpl; lia.
  - rewrite length_firstn; lia.
Qed.

Lemma last_entry_nonempty l : l <> [] -> exists e, last_entry l = Some e.
Proof.
  induction l as [|e l IH]; [congruence|intros _].
  destruct l as [|e' l]; [now exists e|].
  destruct IH as [e'' H]; [discriminate|]; now exists e''.
Qed.

Lemma last_entry_In l (e : entry V) : last_entry l = Some e -> In e l.
Proof.
  induction l as [|e' l IH]; [discriminate|].
  destruct l as [|e'' l]; [intros [= ->]; now left|].
  intros H; right; now apply IH.
Qed.

(** What a returned page is made of. *)
Lemma paginate_inv db page_size cursor include_cursor prefix start end_
      reverse r :
  paginate db page_size cursor include_cursor prefix start end_ reverse
  = Ok r ->
  exists start' fetched,
    resume_start cursor start = Ok start' /\
    items db prefix start' end_ reverse (Some (page_size + 1)%Z)
    = Ok fetched /\
    has_more r = (page_size <? Z.of_nat (length fetched))%Z /\
    page_items r = (if has_more r then slice_to fetched page_size
                    else fetched) /\
    (match (if has_more r then last_entry (page_items r) else None) with
     | Some (k, _) => exists c, _encode_cursor k = Ok c
                                /\ next_cursor r = Some c
     | None => next_cursor r = None
     end).
Proof.
  unfold paginate.
  destruct (resume_start cursor start) as [start'|]; [|discriminate].
  cbn [bind].
  destruct (items _ _ _ _ _ _) as [fetched|] eqn:Ei; [|discriminate].
  cbn [bind].
  destruct (page_size <? Z.of_nat (length fetched))%Z eqn:Em.
  - destruct (last_entry (slice_to fetched page_size)) as [[k v]|] eqn:El.
    + destruct (_encode_cursor k) as [c|] eqn:Ec; [|discriminate].
      intros [= <-]; cbn [bind page_items has_more next_cursor].
      exists start', fetched; rewrite Em, El; eauto 10.
    + intros [= <-]; cbn [page_items has_more next_cursor].
      exists start', fetched; rewrite Em, El; auto 10.
  - intros [= <-]; cbn [page_items has_more next_cursor].
    exists start', fetched; rewrite Em; auto 10.
Qed.

Lemma In_firstn (n : nat) l (e : entry V) : In e (firstn n l) -> In e l.
Proof.
  revert l; induction n as [|n IH]; intros [|e' l]; simpl; try tauto.
  intros [H|H]; auto.
Qed.

(** [paginate] returns a page whenever [islice] accepts the limit, the
    cursor can be decoded, the iteration does not raise and the keys of
    the store can be encoded. *)
Lemma paginate_returns db page_size cursor include_cursor prefix start end_
      reverse start' all :
  (0 <= page_size < sys_maxsize)%Z ->
  keys_encodable db ->
  resume_start cursor start = Ok start' ->
  iter db prefix start' end_ reverse = Ok all ->
  exists r,
    paginate db page_size cursor include_cursor prefix start end_ reverse
    = Ok r.
Proof.
  intros Hp Hkeys Hst Hit; unfold paginate, items.
  rewrite Hst; cbn [bind].
  rewrite (@islice_list_ok _ _ (page_size + 1)%Z all) by (auto; lia).
  cbn [bind].
  set (fetched := firstn (Z.to_nat (page_size + 1)) all).
  destruct (page_size <? Z.of_nat (length fetched))%Z;
    [|eexists; reflexivity].
  destruct (last_entry (slice_to fetched page_size)) as [[k v]|] eqn:El;
    [|eexists; reflexivity].
  assert (Hin : In (k, v) db).
  { apply (iter_incl _ _ _ _ _ Hit).
    apply last_entry_In in El; unfold slice_to in El.
    destruct (page_size <? 0)%Z; apply In_firstn in El;
      now apply In_firstn in El. }
  unfold keys_encodable in Hkeys; rewrite Forall_forall in Hkeys.
  destruct (decode_encode_cursor (Hkeys _ Hin)) as (c & Ec & _).
  simpl in Ec; rewrite Ec; cbn [bind]; eexists; reflexivity.
Qed.

(** C6. [paginate] asks [items] for [page_size + 1] pairs; there are more
    pages exactly when it gets that many, and the page is then the first
    [page_size] of them, the extra one being dropped.  [next_cursor] is
    the encoded key of the last pair of the page when there are more
    pages, and none when there are not. *)
Theorem paginate_fetches_one_extra db page_size cursor include_cursor
        prefix start end_ reverse r :
  paginate db page_size cursor include_cursor prefix start end_ reverse
  = Ok r ->
  exists start' fetched,
    resume_start cursor start = Ok start' /\
    items db prefix start' end_ reverse (Some (page_size + 1)%Z)
    = Ok fetched /\
    page_items r = firstn (Z.to_nat page_size) fetched /\
    (has_more r = true <->
     Z.of_nat (length fetched) = (page_size + 1)%Z) /\
    (has_more r = false ->
     page_items r = fetched /\ next_cursor r = None) /\
    (has_more r = true ->
     forall k v, last_entry (page_items r) = Some (k, v) ->
                 exists c, _encode_cursor k = Ok c
                           /\ next_cursor r = Some c) /\
    (has_more r = true -> (1 <= page_size)%Z ->
     exists k v, last_entry (page_items r) = Some (k, v)).
Proof.
  intros H; destruct (paginate_inv _ _ _ _ _ _ _ _ H)
    as (start' & fetched & Hst & Hit & Hmore & Hitems & Hnext).
  pose proof (items_limit_length _ _ _ _ _ _ Hit) as Hlen.
  exists start', fetched.
  split; [exact Hst|]. split; [exact Hit|].
  assert (Hpage : page_items r = firstn (Z.to_nat page_size) fetched).
  { rewrite Hitems, Hmore; unfold slice_to.
    destruct (Z.ltb_spec page_size (Z.of_nat (length fetched))) as [L|L].
    - destruct (Z.ltb_spec page_size 0); [|reflexivity].
      assert (length fetched = 0%nat) as E by lia.
      apply length_zero_iff_nil in E; subst; now rewrite !firstn_nil.
    - symmetry; apply firstn_all2; lia. }
  split; [exact Hpage|].
  split; [rewrite Hmore, Z.ltb_lt; lia|].
  split; [|split].
  - intros Hf; rewrite Hf in *; auto.
  - intros Ht k v Hl; rewrite Ht, Hl in Hnext; exact Hnext.
  - intros Ht Hp.
    destruct (@last_entry_nonempty (page_items r)) as [[k v] E]; eauto.
    rewrite Hpage; rewrite Ht in Hmore; symmetry in Hmore.
    apply Z.ltb_lt in Hmore.
    destruct fetched as [|e f]; [simpl in Hmore; lia|].
    destruct (Z.to_nat page_size) eqn:En; [lia|discriminate].
Qed.

(** C10. For a page size of at least 1, a returned page has at most
    [page_size] pairs, and it has a [next_cursor] exactly when
    [has_more] is true. *)
Theorem paginate_page_bounded db page_size cursor include_cursor
        prefix start end_ reverse r :
  (1 <= page_size)%Z ->
  paginate db page_size cursor include_cursor prefix start end_ reverse
  = Ok r ->
  (Z.of_nat (length (page_items r)) <= page_size)%Z /\
  (next_cursor r <> None <-> has_more r = true).
Proof.
  intros Hp H; destruct (paginate_inv _ _ _ _ _ _ _ _ H)
    as (start' & fetched & _ & _ & Hmore & Hitems & Hnext).
  rewrite Hitems in *; clear Hitems.
  destruct (has_more r); symmetry in Hmore.
  - apply Z.ltb_lt in Hmore.
    assert (Hslice : slice_to fetched page_size
                     = firstn (Z.to_nat page_size) fetched).
    { unfold slice_to; destruct (Z.ltb_spec page_size 0); [lia|easy]. }
    rewrite Hslice in *; split; [rewrite length_firstn; lia|].
    destruct (@last_entry_nonempty (firstn (Z.to_nat page_size) fetched))
      as [[k v] El].
    + destruct fetched as [|e f]; [simpl in Hmore; lia|].
      destruct (Z.to_nat page_size) eqn:En; [lia|discriminate].
    + rewrite El in Hnext; destruct Hnext as (c & _ & ->).
      split; congruence.
  - apply Z.ltb_ge in Hmore; split; [lia|].
    rewrite Hnext; split; congruence.
Qed.

End PaginateFacts.

(** ** Resuming from a cursor *)

Section ResumeFacts.

Variable V : Type.
Implicit Types (db l all : list (entry V)) (r : page V).

(** The page in terms of what [iter] yields from the resume point. *)
Lemma paginate_of_iter db page_size cursor include_cursor prefix start end_
      reverse start' all r :
  (0 <= page_size)%Z ->
  resume_start cursor start = Ok start' ->
  iter db prefix start' end_ reverse = Ok all ->
  paginate db page_size cursor include_cursor prefix start end_ reverse
  = Ok r ->
  page_items r = firstn (Z.to_nat page_size) all /\
  has_more r = (page_size <? Z.of_nat (length all))%Z /\
  match (if has_more r then last_entry (page_items r) else None) with
  | Some (k, _) => exists c, _encode_cursor k = Ok c /\ next_cursor r = Some c
  | None => next_cursor r = None
  end.
Proof.
  intros Hp Hst Hit H.
  destruct (paginate_inv _ _ _ _ _ _ _ _ H)
    as (st & fetched & Hst' & Hitems & Hmore & Hpage & Hnext).
  rewrite Hst in Hst'; injection Hst' as <-.
  unfold items in Hitems.
  apply islice_list_inv in Hitems as [_ [[H0 _]|(all' & Hall & ->)]];
    [lia|].
  rewrite Hit in Hall; apply Ok_inj in Hall; subst all'.
  replace (Z.to_nat (page_size + 1)) with (S (Z.to_nat page_size)) in *
    by lia.
  rewrite length_firstn in Hmore.
  assert (Hm : has_more r = (page_size <? Z.of_nat (length all))%Z).
  { rewrite Hmore.
    destruct (Z.ltb_spec page_size (Z.of_nat (length all)));
      [apply Z.ltb_lt|apply Z.ltb_ge]; lia. }
  split; [|split; [exact Hm|exact Hnext]].
  rewrite Hpage, Hm; unfold slice_to.
  destruct (Z.ltb_spec page_size (Z.of_nat (length all))).
  - destruct (Z.ltb_spec page_size 0); [lia|].
    rewrite firstn_firstn; f_equal; lia.
  - rewrite !firstn_all2 by lia; reflexivity.
Qed.


(** [paginate] decodes the cursor of a key that is not empty: such a
    cursor is not empty either. *)
Lemma resume_start_cursor (k c : pystr) start :
  _encode_cursor k = Ok c -> k <> [] ->
  _decode_cursor c = Ok (k ++ [0]) /\
  resume_start (Some c) start = Ok (Some (k ++ [0])).
Proof.
  intros Hc Hk.
  destruct (decode_encode_cursor (encode_cursor_ok_encodable _ Hc))
    as (c' & Ec & Dc & Hne).
  rewrite Hc in Ec; injection Ec as <-.
  split; [exact Dc|].
  unfold resume_start; destruct c; [now destruct Hne|now rewrite Dc].
Qed.


End ResumeFacts.

(** ** Reading a whole store page by page *)

Section PaginateAll.

Variable V : Type.
Implicit Types (db l done rest : list (entry V)) (r : page V).

Lemma lt_nonempty (x y : pystr) : lt x y -> y <> [].
Proof. unfold lt; intros H ->; now destruct x. Qed.

Lemma keys_sorted_app_lt done rest :
  keys_sorted (done ++ rest) ->
  forall e1 e2, In e1 done -> In e2 rest -> lt (key_of e1) (key_of e2).
Proof.
  unfold keys_sorted; induction done as [|e done IH]; simpl;
    intros Hs e1 e2 H1 H2; [tauto|].
  inversion Hs as [|? ? Hs' Hall]; subst.
  destruct H1 as [->|H1]; [|eauto].
  rewrite Forall_forall in Hall.
  apply Hall, in_map, in_or_app; auto.
Qed.

Lemma keys_sorted_app_r done rest :
  keys_sorted (done ++ rest) -> keys_sorted rest.
Proof.
  unfold keys_sorted; induction done as [|e done IH]; simpl; auto.
  intros Hs; inversion Hs; auto.
Qed.

Lemma keys_sorted_app_l done rest :
  keys_sorted (done ++ rest) -> keys_sorted done.
Proof.
  unfold keys_sorted; induction done as [|e done IH]; simpl;
    [constructor|].
  intros Hs; inversion Hs as [|? ? Hs' Hall]; subst; constructor; auto.
  rewrite map_app in Hall; now apply Forall_app in Hall.
Qed.

Lemma filter_all (q : entry V -> bool) l :
  Forall (fun e => q e = true) l -> filter q l = l.
Proof.
  induction 1 as [|e l He _ IH]; simpl; [reflexivity|].
  now rewrite He, IH.
Qed.

Lemma last_entry_split l (e : entry V) :
  last_entry l = Some e -> exists l', l = l' ++ [e].
Proof.
  induction l as [|e' l IH]; [discriminate|].
  destruct l as [|e'' l]; [intros [= ->]; now exists []|].
  intros H; destruct (IH H) as [l' E]; exists (e' :: l').
  now rewrite E.
Qed.

Lemma last_entry_app l l' :
  l' <> [] -> last_entry (l ++ l') = last_entry l'.
Proof.
  intros Hl'; induction l as [|e l IH]; [reflexivity|].
  simpl; rewrite IH.
  destruct (l ++ l') eqn:E; [|reflexivity].
  apply app_eq_nil in E as [_ ->]; congruence.
Qed.

(** The bounds that [iter] works out for a covering prefix leave every
    key of the store below the upper bound and, with no start, above the
    lower one. *)
Lemma prefix_bounds_covers db prefix start :
  prefix_covers prefix db ->
  exists lo hi,
    prefix_bounds prefix start None = Ok (lo, hi) /\
    (forall s, start = Some s -> lo = Some s) /\
    Forall (fun e => prefix_miss prefix (key_of e) = false) db /\
    Forall (fun e => at_or_above (key_of e) hi = false) db /\
    (start = None -> Forall (fun e => below (key_of e) lo = false) db) /\
    (bound_ok start -> bound_ok prefix -> bound_ok lo).
Proof.
  destruct prefix as [[|a p]|]; simpl.
  1, 3: intros _; exists start, None; repeat split; auto;
    try (intros ->); apply Forall_forall; reflexivity.
  intros [Hlast Hall].
  destruct (prefix_upper_least (p:=a :: p)) as (u & Hu & Hup & _);
    [discriminate|exact Hlast|].
  rewrite Hu; cbn [bind].
  eexists _, (Some u); split; [reflexivity|].
  split; [now intros s ->|].
  rewrite Forall_forall in Hall.
  repeat split; try (intros ->); try (now destruct start);
    apply Forall_forall; intros e He; specialize (Hall e He).
  - unfold key_of in *; simpl in *; now rewrite Hall.
  - simpl; unfold geb; apply negb_false_iff, ltb_lt, Hup, Hall.
  - simpl; apply ltb_false_le.
    apply startswith_app in Hall as [t ->]; apply le_app.
Qed.

(** The pairs that a resumed iteration returns: those not yet read. *)
Lemma iter_resumed done rest prefix k v c :
  keys_sorted (done ++ rest) ->
  prefix_covers prefix (done ++ rest) ->
  last_entry done = Some (k, v) ->
  Utf8.encodable k ->
  _decode_cursor c = Ok (k ++ [0]) ->
  c <> [] ->
  exists start,
    resume_start (Some c) None = Ok start /\
    iter (done ++ rest) prefix start None false = Ok rest.
Proof.
  intros Hs Hcov Hlast Hk Hc Hne; exists (Some (k ++ [0])); split.
  - unfold resume_start; destruct c; [congruence|]; now rewrite Hc.
  - destruct (@prefix_bounds_covers (done ++ rest) prefix
                                    (Some (k ++ [0])) Hcov)
      as (lo & hi & Hb & Hlo & Hmiss & Hhi & _).
    rewrite (Hlo _ eq_refl) in Hb.
    rewrite iter_forward_bounds with (lo := Some (k ++ [0])) (hi := hi)
      by (auto using no_miss_range_hits; now apply encodable_succ).
    apply Forall_app in Hhi as [_ Hhi]; rewrite Forall_forall in Hhi.
    rewrite filter_app, filter_none, filter_all; auto.
    + rewrite Forall_forall; intros e He.
      unfold within, in_range; rewrite (Hhi e He); simpl.
      rewrite andb_true_r.
      apply negb_true_iff, ltb_false_le, le_succ_iff.
      apply (keys_sorted_app_lt _ _ Hs (k, v)); auto.
      now apply last_entry_In.
    + rewrite Forall_forall; intros e He.
      unfold within, in_range; simpl.
      apply andb_false_iff; left.
      apply negb_false_iff, ltb_lt.
      apply last_entry_split in Hlast as [done' ->].
      apply in_app_or in He as [He|[<-|[]]]; [|apply lt_succ].
      apply lt_trans with k; [|apply lt_succ].
      apply keys_sorted_app_l in Hs.
      apply (keys_sorted_app_lt _ _ Hs e (k, v)); simpl; auto.
Qed.

Lemma iter_unbounded db prefix :
  keys_sorted db -> prefix_covers prefix db -> bound_ok prefix ->
  iter db prefix None None false = Ok db.
Proof.
  intros Hs Hcov Hpre.
  destruct (@prefix_bounds_covers db prefix None Hcov)
    as (lo & hi & Hb & _ & Hmiss & Hhi & Hlo & Hok).
  rewrite iter_forward_bounds with (lo := lo) (hi := hi)
    by (auto using no_miss_range_hits; now apply Hok).
  rewrite filter_all; auto.
  specialize (Hlo eq_refl); rewrite Forall_forall in *; intros e He.
  unfold within, in_range; now rewrite (Hlo e He), (Hhi e He).
Qed.

Section OnePage.

Variables (db : rdict V) (p : nat) (prefix : option pystr).
Hypothesis Hsorted : keys_sorted db.
Hypothesis Hkeys : keys_encodable db.
Hypothesis Hcover : prefix_covers prefix db.
Hypothesis Hprefix : bound_ok prefix.
Hypothesis Hp : (1 <= p)%nat.
Hypothesis Hmax : (Z.of_nat p < sys_maxsize)%Z.
Hypothesis Hfirst : (2 <= p)%nat \/ ~ has_key db [].

(** One call of the client: the next [p] unread pairs, and a cursor
    for the call after it. *)
Lemma paginate_next_page done rest cursor :
  db = done ++ rest -> resume_ok done cursor ->
  exists r,
    paginate db (Z.of_nat p) cursor true prefix None None false = Ok r /\
    page_items r = firstn p rest /\
    has_more r = (p <? length rest)%nat /\
    (has_more r = false -> next_cursor r = None) /\
    (has_more r = true -> next_cursor r <> None) /\
    (has_more r = true ->
     resume_ok (done ++ firstn p rest) (next_cursor r)).
Proof.
  intros Hdb Hres.
  assert (Hiter : exists start,
             resume_start cursor None = Ok start /\
             iter db prefix start None false = Ok rest).
  { unfold resume_ok in Hres.
    destruct (last_entry done) as [[k v]|] eqn:Hlast.
    - destruct Hres as (c & Ec & Hne & ->).
      assert (Hk : Utf8.encodable k).
      { unfold keys_encodable in Hkeys; rewrite Forall_forall in Hkeys.
        apply (Hkeys (k, v)); subst db.
        apply in_or_app; left; now apply last_entry_In. }
      destruct (decode_encode_cursor Hk) as (c' & Ec' & Dc & _).
      rewrite Ec in Ec'; injection Ec' as <-.
      subst db; now apply iter_resumed with k v.
    - assert (done = []) as ->.
      { destruct done as [|e done']; [reflexivity|].
        destruct (@last_entry_nonempty V (e :: done')) as [e' He'];
          congruence. }
      subst cursor; exists None; split; [reflexivity|].
      subst db; now apply iter_unbounded. }
  destruct Hiter as (start & Hstart & Hiter).
  assert (Hitems : items db prefix start None false
                         (Some (Z.of_nat p + 1)%Z)
                   = Ok (firstn (S p) rest)).
  { unfold items.
    rewrite (@islice_list_ok _ _ (Z.of_nat p + 1)%Z rest) by (auto; lia).
    now replace (Z.to_nat (Z.of_nat p + 1)) with (S p) by lia. }
  unfold paginate; rewrite Hstart; cbn [bind].
  rewrite Hitems; cbn [bind].
  rewrite length_firstn.
  destruct (Nat.ltb_spec p (length rest)) as [Hlt|Hge].
  - assert ((Z.of_nat p <? Z.of_nat (Nat.min (S p) (length rest)))%Z
            = true) as -> by (apply Z.ltb_lt; lia).
    assert (Hslice : slice_to (firstn (S p) rest) (Z.of_nat p)
                     = firstn p rest).
    { unfold slice_to.
      destruct (Z.ltb_spec (Z.of_nat p) 0); [lia|].
      rewrite Nat2Z.id, firstn_firstn; f_equal; lia. }
    rewrite Hslice.
    destruct (@last_entry_nonempty V (firstn p rest)) as [[k v] Hl].
    { intros E; apply (f_equal (@length _)) in E.
      rewrite length_firstn in E; simpl in E; lia. }
    rewrite Hl.
    assert (Hin : In (k, v) db).
    { subst db; apply in_or_app; right.
      apply last_entry_In in Hl.
      rewrite <- (firstn_skipn p rest); apply in_or_app; now left. }
    assert (Hk : Utf8.encodable k).
    { unfold keys_encodable in Hkeys; rewrite Forall_forall in Hkeys.
      exact (Hkeys _ Hin). }
    destruct (decode_encode_cursor Hk) as (c & Ec & _ & Hne).
    rewrite Ec; cbn [bind].
    eexists; split; [reflexivity|].
    cbn [page_items has_more next_cursor].
    repeat split; try congruence.
    intros _; unfold resume_ok.
    rewrite last_entry_app, Hl
      by (intros E; rewrite E in Hl; discriminate).
    exists c; repeat split; auto.
    apply Hne.
    destruct Hfirst as [H2|Hno].
    + apply last_entry_split in Hl as [l' El'].
      assert (Hs' : keys_sorted (firstn p rest)).
      { apply keys_sorted_app_l with (skipn p rest).
        rewrite firstn_skipn.
        apply keys_sorted_app_r with done; now subst db. }
      rewrite El' in Hs'.
      destruct l' as [|e1 l'].
      { apply (f_equal (@length _)) in El'.
        rewrite length_firstn in El'; simpl in El'; lia. }
      apply lt_nonempty with (key_of e1).
      apply (keys_sorted_app_lt _ _ Hs' e1 (k, v)); simpl; auto.
    + intros ->; apply Hno; unfold has_key.
      change [] with (key_of ([], v)); now apply in_map.
  - assert ((Z.of_nat p <? Z.of_nat (Nat.min (S p) (length rest)))%Z
            = false) as -> by (apply Z.ltb_ge; lia).
    eexists; split; [reflexivity|].
    cbn [page_items has_more next_cursor].
    repeat split; try congruence.
    rewrite !firstn_all2 by lia; reflexivity.
Qed.

(** The client reads all the unread pairs, page after page, and the
    last page says that there is no more. *)
Lemma paginate_all_collects calls :
  forall done rest cursor,
    db = done ++ rest -> resume_ok done cursor ->
    (1 <= calls)%nat -> (length rest <= calls * p)%nat ->
    exists init lastp,
      paginate_all calls db (Z.of_nat p) prefix cursor
      = Ok (init ++ [lastp]) /\
      concat (map (@page_items V) (init ++ [lastp])) = rest /\
      Forall (fun q => has_more q = true /\ next_cursor q <> None
                       /\ length (page_items q) = p) init /\
      has_more lastp = false /\
      next_cursor lastp = None /\
      (length (page_items lastp) <= p)%nat /\
      (rest <> [] -> page_items lastp <> []).
Proof.
  induction calls as [|n IH]; intros done rest cursor Hdb Hres Hc Hlen;
    [lia|].
  destruct (paginate_next_page done rest cursor Hdb Hres)
    as (r & Hr & Hitems & Hmore & Hstop & Hsome & Hnext).
  cbn [paginate_all]; rewrite Hr; cbn [bind].
  destruct (Nat.ltb_spec p (length rest)) as [Hlt|Hge].
  - rewrite Hmore.
    destruct (IH (done ++ firstn p rest) (skipn p rest) (next_cursor r))
      as (init & lastp & Hall & Hcat & Hinit & Hl1 & Hl2 & Hl3 & Hl4).
    + now rewrite <- app_assoc, firstn_skipn.
    + now apply Hnext.
    + destruct n; [simpl in Hlen; lia|lia].
    + rewrite length_skipn; simpl in Hlen; lia.
    + rewrite Hall; cbn [bind].
      exists (r :: init), lastp; cbn [app map concat].
      rewrite Hcat, Hitems, firstn_skipn.
      repeat split; auto.
      * constructor; auto; repeat split; auto.
        rewrite Hitems, length_firstn; lia.
      * intros _; apply Hl4; intros E.
        apply (f_equal (@length _)) in E.
        rewrite length_skipn in E; simpl in E; lia.
  - rewrite Hmore.
    exists [], r; cbn [app map concat]; rewrite app_nil_r.
    rewrite Hitems, firstn_all2 by lia.
    repeat split; auto.
Qed.

End OnePage.

End PaginateAll.

Section PaginateHundred.

Variable V : Type.

Lemma concat_full_pages (p : nat) (pages : list (page V)) :
  Forall (fun q => has_more q = true /\ next_cursor q <> None
                   /\ length (page_items q) = p) pages ->
  length (concat (map (@page_items V) pages)) = (length pages * p)%nat.
Proof.
  induction 1 as [|q pages (_ & _ & Hq) _ IH]; simpl; [reflexivity|].
  rewrite length_app, Hq, IH; reflexivity.
Qed.

(** The prefix of a store that is not empty can be encoded, as its keys
    can. *)
Lemma prefix_covers_encodable (db : rdict V) (prefix : option pystr) :
  db <> [] -> keys_encodable db -> prefix_covers prefix db ->
  bound_ok prefix.
Proof.
  destruct db as [|e db]; [congruence|intros _ Hk Hcov].
  inversion Hk as [|? ? He _]; subst.
  destruct prefix as [[|a p]|]; simpl in *; [constructor| |exact I].
  destruct Hcov as [_ Hall]; inversion Hall as [|? ? Hsw _]; subst.
  exact (@startswith_encodable _ _ Hsw He).
Qed.

(** C1. A client that reads a store of 100 pairs with distinct keys in
    pages of 10, passing each [next_cursor] to the next call, gets ten
    pages of ten pairs; put end to end they are the 100 pairs of the
    store, each once, in ascending key order; the last page has
    [has_more] false and no [next_cursor].  The client may pass no prefix
    ([prefix_covers None db] holds of every store) or, as the test does, a
    prefix that all the keys have. *)
Theorem paginate_hundred_by_ten (db : rdict V) (prefix : option pystr)
        (calls : nat) :
  keys_sorted db -> keys_encodable db -> prefix_covers prefix db ->
  length db = 100%nat -> (10 <= calls)%nat ->
  exists init lastp,
    paginate_all calls db 10 prefix None = Ok (init ++ [lastp]) /\
    length (init ++ [lastp]) = 10%nat /\
    Forall (fun q => length (page_items q) = 10%nat) (init ++ [lastp]) /\
    Forall (fun q => has_more q = true /\ next_cursor q <> None) init /\
    concat (map (@page_items V) (init ++ [lastp])) = db /\
    keys_sorted (concat (map (@page_items V) (init ++ [lastp]))) /\
    has_more lastp = false /\
    next_cursor lastp = None.
Proof.
  intros Hs Hk Hcov Hlen Hcalls.
  assert (Hpre : bound_ok prefix).
  { apply prefix_covers_encodable with db; auto.
    intros ->; discriminate. }
  destruct (@paginate_all_collects V db 10 prefix Hs Hk Hcov Hpre) with
    (calls := calls) (done := @nil (entry V)) (rest := db)
    (cursor := @None pystr)
    as (init & lastp & Hall & Hcat & Hinit & Hl1 & Hl2 & Hl3 & Hl4);
    try reflexivity; try lia; auto.
  assert (Hne : page_items lastp <> [])
    by (apply Hl4; intros ->; discriminate).
  pose proof (concat_full_pages Hinit) as Hfull.
  assert (Hsum : (length init * 10 + length (page_items lastp) = 100)%nat).
  { rewrite <- Hlen, <- Hcat at 1.
    rewrite map_app, concat_app, length_app, Hfull; simpl.
    now rewrite app_nil_r. }
  assert (0 < length (page_items lastp))%nat
    by (destruct (page_items lastp); [congruence|simpl; lia]).
  assert (Hni : length init = 9%nat) by lia.
  assert (Hnl : length (page_items lastp) = 10%nat) by lia.
  exists init, lastp.
  split; [exact Hall|].
  split; [rewrite length_app; simpl; lia|].
  split.
  { apply Forall_app; split.
    - eapply Forall_impl; [|exact Hinit]; now intros q (_ & _ & Hq).
    - now constructor. }
  split.
  { eapply Forall_impl; [|exact Hinit]; now intros q (? & ? & _). }
  rewrite Hcat; auto.
Qed.

End PaginateHundred.

(** ** The properties on the sample stores *)

Section Deciders.

Variable V : Type.

Lemma ascending_sound (ks : list pystr) :
  ascending ks = true -> StronglySorted lt ks.
Proof.
  intros H; apply Sorted_StronglySorted.
  - intros a b c; apply lt_trans.
  - induction ks as [|k ks IH]; [constructor|].
    destruct ks as [|k' ks]; [repeat constructor|].
    cbn [ascending] in H; apply andb_true_iff in H as [H1 H2].
    constructor; [auto|constructor; now apply ltb_lt].
Qed.

Lemma keys_sortedb_sound (db : rdict V) :
  keys_sortedb db = true -> keys_sorted db.
Proof. apply ascending_sound. Qed.

Lemma keys_encodableb_sound (db : rdict V) :
  keys_encodableb db = true -> keys_encodable db.
Proof.
  unfold keys_encodableb, keys_encodable, Utf8.encodable.
  rewrite forallb_forall, Forall_forall; intros H e He.
  apply Forall_forall; intros c Hc.
  specialize (H e He); rewrite forallb_forall in H; auto.
Qed.

End Deciders.

Module SampleFacts.
Import Sample.

Lemma users_sorted : keys_sorted users.
Proof. now apply keys_sortedb_sound. Qed.

Lemma hundred_sorted : keys_sorted hundred.
Proof. apply keys_sortedb_sound; vm_compute; reflexivity. Qed.

Lemma hundred_encodable : keys_encodable hundred.
Proof. apply keys_encodableb_sound; vm_compute; reflexivity. Qed.

Lemma hundred_covered : prefix_covers (Some item_prefix) hundred.
Proof.
  split; [reflexivity|].
  assert (H : forallb (fun e => startswith (key_of e) item_prefix) hundred
              = true) by (vm_compute; reflexivity).
  rewrite forallb_forall in H; apply Forall_forall; exact H.
Qed.

Lemma paginate_hundred_by_ten_witness :
  keys_sorted hundred /\ keys_encodable hundred /\
  prefix_covers (Some item_prefix) hundred /\
  length hundred = 100%nat /\ (10 <= 10)%nat /\
  exists init lastp,
    paginate_all 10 hundred 10 (Some item_prefix) None
    = Ok (init ++ [lastp]) /\
    length (init ++ [lastp]) = 10%nat /\
    Forall (fun q => length (page_items q) = 10%nat) (init ++ [lastp]) /\
    Forall (fun q => has_more q = true /\ next_cursor q <> None) init /\
    concat (map (@page_items pystr) (init ++ [lastp])) = hundred /\
    keys_sorted (concat (map (@page_items pystr) (init ++ [lastp]))) /\
    has_more lastp = false /\
    next_cursor lastp = None.
Proof.
  split; [exact hundred_sorted|].
  split; [exact hundred_encodable|].
  split; [exact hundred_covered|].
  split; [reflexivity|].
  split; [lia|].
  apply (@paginate_hundred_by_ten pystr hundred (Some item_prefix) 10).
  - exact hundred_sorted.
  - exact hundred_encodable.
  - exact hundred_covered.
  - reflexivity.
  - lia.
Defined.

Lemma user_02_encodable : Utf8.encodable user_02.
Proof. apply encodable_forallb; reflexivity. Qed.

Lemma user_05_encodable : Utf8.encodable user_05.
Proof. apply encodable_forallb; reflexivity. Qed.

Lemma users_encodable : keys_encodable users.
Proof. now apply keys_encodableb_sound. Qed.

Lemma iter_forward_half_open_witness :
  keys_sorted users /\
  bound_ok (Some user_02) /\
  exists l,
    iter users None (Some user_02)
         (Some user_04) false = Ok l /\
    items users None (Some user_02)
          (Some user_04) false None = Ok l /\
    keys_sorted l /\
    forall e, In e l <->
              In e users /\
              key_in_range (Some user_02)
                           (Some user_04) (key_of e).
Proof.
  split; [exact users_sorted|].
  split; [exact user_02_encodable|].
  apply (@iter_forward_half_open pystr users);
    [exact users_sorted|exact user_02_encodable].
Defined.

Lemma iter_reverse_swaps_bounds_witness :
  keys_sorted users /\
  Utf8.encodable user_02 /\ Utf8.encodable user_05 /\
  lt user_02 user_05 /\
  exists l,
    iter users None (Some user_02)
         (Some user_05) false = Ok l /\
    iter users None (Some user_05)
         (Some user_02) true = Ok (rev l) /\
    keys_descending (rev l) /\
    forall e, In e (rev l) <->
              In e users /\ le user_02 (key_of e)
              /\ lt (key_of e) user_05.
Proof.
  split; [exact users_sorted|].
  split; [exact user_02_encodable|].
  split; [exact user_05_encodable|].
  split; [reflexivity|].
  apply (@iter_reverse_swaps_bounds pystr users);
    [exact users_sorted|exact user_02_encodable|exact user_05_encodable
    |reflexivity].
Defined.



Lemma paginate_fetches_one_extra_witness :
  exists r,
    paginate users 3 None true None None None false = Ok r /\
    exists start' fetched,
      resume_start None None = Ok start' /\
      items users None start' None false (Some (3 + 1)%Z) = Ok fetched /\
      page_items r = firstn (Z.to_nat 3) fetched /\
      (has_more r = true <-> Z.of_nat (length fetched) = (3 + 1)%Z) /\
      (has_more r = false ->
       page_items r = fetched /\ next_cursor r = None) /\
      (has_more r = true ->
       forall k v, last_entry (page_items r) = Some (k, v) ->
                   exists c, _encode_cursor k = Ok c
                             /\ next_cursor r = Some c) /\
      (has_more r = true -> (1 <= 3)%Z ->
       exists k v, last_entry (page_items r) = Some (k, v)).
Proof.
  eexists; split; [vm_compute; reflexivity|].
  apply (@paginate_fetches_one_extra pystr users 3 None true
                                     None None None false).
  vm_compute; reflexivity.
Defined.

Lemma paginate_page_bounded_witness :
  exists r,
    (1 <= 3)%Z /\
    paginate users 3 None true (Some user_prefix) None None true
    = Ok r /\
    (Z.of_nat (length (page_items r)) <= 3)%Z /\
    (next_cursor r <> None <-> has_more r = true).
Proof.
  eexists; split; [lia|].
  split; [vm_compute; reflexivity|].
  apply (@paginate_page_bounded pystr users 3 None true
                                (Some user_prefix) None None true);
    [lia|vm_compute; reflexivity].
Defined.

Lemma get_absent_returns_default_witness :
  Utf8.encodable nonexistent /\
  ~ has_key users nonexistent /\
  get false users nonexistent (Some default_value)
  = Ok (Some default_value) /\
  get false users nonexistent None = Ok None.
Proof.
  assert (H0 : Utf8.encodable nonexistent)
    by (apply encodable_forallb; reflexivity).
  assert (H : ~ has_key users nonexistent)
    by (unfold has_key; simpl; intuition discriminate).
  split; [exact H0|split; [exact H|]].
  apply (@get_absent_returns_default pystr false users); [exact H0|exact H].
Defined.

Lemma delete_absent_noop_witness :
  Utf8.encodable user_99 /\
  ~ has_key users user_99 /\
  delete users user_99 = Ok users.
Proof.
  assert (H0 : Utf8.encodable user_99)
    by (apply encodable_forallb; reflexivity).
  assert (H : ~ has_key users user_99)
    by (unfold has_key; simpl; intuition discriminate).
  split; [exact H0|split; [exact H|]].
  apply (@delete_absent_noop pystr users); [exact H0|exact H].
Defined.

Lemma iter_yields_prefixed_keys_witness :
  exists l,
    user_prefix <> [] /\
    iter users (Some user_prefix) None None true = Ok l /\
    l <> [] /\
    Forall (fun e => startswith (key_of e) user_prefix = true) l.
Proof.
  eexists; split; [discriminate|].
  split; [vm_compute; reflexivity|].
  split; [discriminate|].
  apply (@iter_yields_prefixed_keys pystr users user_prefix
                                    None None true);
    [discriminate|vm_compute; reflexivity].
Defined.

Lemma prefix_upper_bound_derived_witness :
  user_prefix <> [] /\
  (last_char user_prefix < max_code_point ->
   exists u,
     u = init user_prefix ++ [last_char user_prefix + 1] /\
     iter users (Some user_prefix) (Some user_02) None true
     = iter users (Some user_prefix) (Some user_02) (Some u) true /\
     (forall s, startswith s user_prefix = true -> lt s u) /\
     (forall x, (forall s, startswith s user_prefix = true -> lt s x) ->
                le u x)) /\
  (last_char user_prefix = max_code_point ->
   iter users (Some user_prefix) (Some user_02) None true
   = Raise ValueError).
Proof.
  assert (H1 : user_prefix <> []) by discriminate.
  split; [exact H1|].
  exact (@prefix_upper_bound_derived pystr users user_prefix
                                     (Some user_02) true H1).
Defined.

(** For the prefix made of the largest code point alone the iteration
    raises [ValueError]: the upper bound is not replaced by "no upper
    bound". *)
Lemma iter_prefix_max_char_counterexample :
  iter users (Some [max_code_point]) None None false = Raise ValueError.
Proof. vm_compute; reflexivity. Qed.

End SampleFacts.

(** ** Runs of the tests of the repository, and a corner of the cursor *)

Module Runs.
Import Sample.

(** [test_paginate_method]: pages of 10 under the prefix [item:] give the
    100 items in order, in ten calls. *)
Example test_paginate_method :
  exists pages,
    paginate_all 100 hundred 10 (Some item_prefix) None = Ok pages /\
    length pages = 10%nat /\
    concat (map (@page_items pystr) pages) = hundred.
Proof.
  eexists; split; [vm_compute; reflexivity|].
  split; vm_compute; reflexivity.
Qed.

(** The reverse page of the same test: the last five items, backwards. *)
Example test_paginate_reverse :
  exists r,
    paginate hundred 5 None true (Some item_prefix) None None true = Ok r /\
    page_items r = firstn 5 (rev hundred) /\ has_more r = true.
Proof.
  eexists; split; [vm_compute; reflexivity|].
  split; vm_compute; reflexivity.
Qed.

(** [test_iter_reverse]: [iter(start="user:02", end="user:05",
    reverse=True)] yields user:04, user:03, user:02. *)
Example test_iter_reverse :
  exists l,
    iter users None (Some user_02) (Some user_05) true = Ok l /\
    map (@key_of pystr) l = [user_04; user_03; user_02].
Proof. eexists; split; vm_compute; reflexivity. Qed.

(** [test_iter_range]: the number of pairs in each of its six ranges. *)
Example test_iter_range :
  map (fun b => match iter ten_users None (fst b) (snd b) false with
                | Ok l => Some (length l)
                | Raise _ => None
                end)
      [(Some user_03, Some user_05); (None, Some user_03);
       (Some user_08, None); (Some user_99, None);
       (None, Some user_00); (Some user_05, Some user_05)]
  = [Some 2; Some 2; Some 3; Some 0; Some 0; Some 0]%nat.
Proof. vm_compute; reflexivity. Qed.

(** The cursor of the empty key is the empty string, which [paginate]
    takes for no cursor: with pages of one pair, a store whose first key is
    empty gives its first page again. *)
Example paginate_empty_key_cursor :
  exists r,
    paginate with_empty_key 1 None true None None None false = Ok r /\
    next_cursor r = Some [] /\
    paginate with_empty_key 1 (next_cursor r) true None None None false
    = Ok r.
Proof.
  eexists; split; [vm_compute; reflexivity|].
  split; vm_compute; reflexivity.
Qed.

(** A string with a surrogate is not a key: the store raises
    [UnicodeEncodeError] when it encodes it, as a key or as the target of
    a seek, and the wrapper lets the exception through.  The forward
    iteration does not seek its [end]. *)
Example surrogate_raises :
  get false users lone_surrogate None = Raise UnicodeEncodeError /\
  put users lone_surrogate bob = Raise UnicodeEncodeError /\
  delete users lone_surrogate = Raise UnicodeEncodeError /\
  iter users None (Some lone_surrogate) None false
  = Raise UnicodeEncodeError /\
  iter users None None (Some lone_surrogate) true
  = Raise UnicodeEncodeError /\
  iter users None None (Some lone_surrogate) false = Ok users.
Proof. repeat split; vm_compute; reflexivity. Qed.

(** A prefix that ends with U+D7FF: the bound derived from it ends with a
    surrogate.  The forward iteration never seeks it; the reverse one
    does, and raises. *)
Example prefix_before_surrogates :
  iter users (Some (user_prefix ++ before_surrogates)) None None false
  = Ok [] /\
  iter users (Some (user_prefix ++ before_surrogates)) None None true
  = Raise UnicodeEncodeError.
Proof. split; vm_compute; reflexivity. Qed.

(** [islice] refuses a limit above [sys.maxsize], so [paginate] raises for
    a page size of [sys.maxsize]. *)
Example paginate_page_size_maxsize :
  paginate users sys_maxsize None true None None None false
  = Raise ValueError.
Proof. vm_compute; reflexivity. Qed.

End Runs.

(** * Further properties of the code *)

(** ** [iter] for all its arguments *)

Section IterAll.

Variable V : Type.
Implicit Types (db l : list (entry V)) (key : pystr).

Lemma between_prefixed (p k t : pystr) :
  le p k -> lt k (p ++ t) -> startswith k p = true.
Proof.
  unfold le, lt; revert k; induction p as [|a p IH]; intros k.
  - intros _ _; now destruct k.
  - destruct k as [|y k]; simpl; [congruence|].
    destruct (N.compare_spec a y) as [E|L|G]; try congruence.
    + subst; rewrite N.compare_refl, N.eqb_refl; simpl; apply IH.
    + assert ((y ?= a) = Gt) as -> by (apply N.compare_gt_iff; lia).
      discriminate.
Qed.

(** Past a key above the prefix that does not start with it, no key starts
    with it. *)
Lemma miss_after (p k k' : pystr) :
  startswith k p = false -> lt p k -> lt k k' -> startswith k' p = false.
Proof.
  intros Hk Hpk Hkk'.
  destruct (startswith k' p) eqn:E; [|reflexivity].
  apply startswith_app in E as [t ->].
  rewrite between_prefixed with (t := t) in Hk; auto.
  apply le_lteq; now left.
Qed.

(** Before a key below the prefix, no key starts with it. *)
Lemma miss_before (p k k' : pystr) :
  lt k p -> lt k' k -> startswith k' p = false.
Proof.
  intros Hkp Hk'k.
  destruct (startswith k' p) eqn:E; [|reflexivity].
  apply startswith_app in E as [t ->].
  destruct (proj1 (le_not_lt p (p ++ t)) (le_app p t)).
  eauto using lt_trans.
Qed.

Lemma within_pair start end_ key (v : V) :
  within start end_ (key, v)
  = negb (below key start) && negb (at_or_above key end_).
Proof. reflexivity. Qed.

(** The forward loop over ascending entries keeps the entries in range
    that pass the prefix test. *)
Lemma iter_loop_forward_hits prefix start end_ l :
  keys_sorted l ->
  iter_loop prefix start end_ false l
  = filter (fun e => within start end_ e && prefix_hit prefix (key_of e)) l.
Proof.
  unfold keys_sorted.
  induction l as [|[k v] l IH]; intros Hs; [reflexivity|].
  inversion Hs as [|? ? Hs' Hall]; subst.
  rewrite Forall_forall in Hall.
  cbn [iter_loop filter]; rewrite within_pair; unfold prefix_hit at 1.
  cbn [key_of fst].
  destruct (at_or_above k end_) eqn:Ehi.
  - rewrite andb_false_r; cbn [andb]; symmetry; apply filter_none.
    apply Forall_forall; intros e He.
    unfold within, in_range.
    rewrite (@at_or_above_mono k (key_of e) end_); auto.
    + now rewrite andb_false_r.
    + apply Hall, in_map, He.
  - destruct (below k start); cbn [negb andb]; [auto|].
    destruct (prefix_miss prefix k) eqn:Emiss; cbn [negb];
      [|f_equal; auto].
    destruct (prefix_passed prefix false k) eqn:Epass; [|auto].
    symmetry; apply filter_none, Forall_forall; intros e He.
    unfold prefix_hit.
    destruct prefix as [[|a p]|]; try discriminate; simpl in *.
    apply negb_true_iff in Emiss; apply gtb_lt in Epass.
    rewrite (@miss_after (a :: p) k (key_of e)); auto.
    + apply andb_false_r.
    + apply Hall, in_map, He.
Qed.

(** The same for the backward loop over descending entries. *)
Lemma iter_loop_backward_hits prefix start end_ l :
  keys_descending l ->
  iter_loop prefix start end_ true l
  = filter (fun e => within start end_ e && prefix_hit prefix (key_of e)) l.
Proof.
  unfold keys_descending.
  induction l as [|[k v] l IH]; intros Hs; [reflexivity|].
  inversion Hs as [|? ? Hs' Hall]; subst.
  rewrite Forall_forall in Hall.
  cbn [iter_loop filter]; rewrite within_pair; unfold prefix_hit at 1.
  cbn [key_of fst].
  destruct (below k start) eqn:Elo; cbn [negb andb].
  - symmetry; apply filter_none.
    apply Forall_forall; intros e He.
    unfold within, in_range.
    rewrite (@below_mono k (key_of e) start); auto.
    apply Hall, in_map, He.
  - destruct (at_or_above k end_); cbn [negb andb]; [auto|].
    destruct (prefix_miss prefix k) eqn:Emiss; cbn [negb];
      [|f_equal; auto].
    destruct (prefix_passed prefix true k) eqn:Epass; [|auto].
    symmetry; apply filter_none, Forall_forall; intros e He.
    unfold prefix_hit.
    destruct prefix as [[|a p]|]; try discriminate; simpl in *.
    apply ltb_lt in Epass.
    rewrite (@miss_before (a :: p) k (key_of e)); auto.
    + apply andb_false_r.
    + apply Hall, in_map, He.
Qed.

(** [iter] as a filter of the store, when the bounds that it seeks can be
    encoded. *)
Lemma iter_as_filter db prefix start end_ reverse s e lo hi :
  keys_sorted db ->
  prefix_bounds prefix start end_ = Ok (s, e) ->
  swap_bounds reverse (s, e) = (lo, hi) ->
  seeks_ok reverse lo hi ->
  iter db prefix start end_ reverse
  = Ok (in_direction reverse
          (filter (fun x => within lo hi x && prefix_hit prefix (key_of x))
                  db)).
Proof.
  intros Hs Hb Hsw Hok.
  rewrite (@iter_returns V db prefix start end_ reverse s e lo hi
                         Hb Hsw Hok); f_equal.
  unfold first_position; destruct reverse; unfold in_direction.
  - rewrite <- filter_rev.
    apply keys_sorted_rev in Hs.
    destruct hi as [h|]; [|now apply iter_loop_backward_hits].
    unfold last_at_or_before; rewrite iter_loop_backward_hits
      by now apply sorted_drop_until.
    apply filter_drop_until; intros x Hx.
    unfold within, in_range; simpl.
    unfold leb in Hx; apply negb_false_iff, gtb_lt in Hx.
    assert (geb (key_of x) h = true) as ->
        by (apply geb_le, le_lteq; auto).
    now rewrite andb_false_r.
  - destruct lo as [l0|]; [|now apply iter_loop_forward_hits].
    unfold first_at_or_past; rewrite iter_loop_forward_hits
      by now apply sorted_drop_until.
    apply filter_drop_until; intros x Hx.
    unfold within, in_range; simpl.
    unfold geb in Hx; now destruct (ltb (key_of x) l0).
Qed.

Lemma prefix_hit_spec prefix key :
  prefix_hit prefix key = true
  <-> forall p, prefix = Some p -> startswith key p = true.
Proof.
  unfold prefix_hit; destruct prefix as [[|a p]|]; simpl.
  - split; [intros _ p [= <-]; now destruct key|reflexivity].
  - rewrite negb_involutive; split; [now intros H p' [= <-]|auto].
  - split; [intros _ p; discriminate|reflexivity].
Qed.

Lemma keys_sorted_in_direction reverse db :
  keys_sorted db -> keys_in_order reverse (in_direction reverse db).
Proof. destruct reverse; simpl; auto using keys_sorted_rev. Qed.

(** X1. [iter] in one statement: for a store in key order and bounds
    that the store can encode, the pairs yielded are exactly the stored
    pairs whose key is within the bounds and starts with the prefix, in
    ascending key order, or descending when [reverse] is set.  The bounds
    are those left by the prefix and by the swap of the reverse case. *)
Theorem iter_exact db prefix start end_ reverse s e lo hi :
  keys_sorted db ->
  prefix_bounds prefix start end_ = Ok (s, e) ->
  swap_bounds reverse (s, e) = (lo, hi) ->
  seeks_ok reverse lo hi ->
  exists l,
    iter db prefix start end_ reverse = Ok l /\
    (forall x, In x l <->
               In x db /\ key_in_range lo hi (key_of x) /\
               forall p, prefix = Some p -> startswith (key_of x) p = true)
    /\ keys_in_order reverse l.
Proof.
  intros Hs Hb Hsw Hok.
  rewrite iter_as_filter with (s := s) (e := e) (lo := lo) (hi := hi)
    by assumption.
  eexists; split; [reflexivity|split].
  - intros x.
    assert (In x (in_direction reverse
                    (filter (fun x => within lo hi x
                                      && prefix_hit prefix (key_of x)) db))
            <-> In x (filter (fun x => within lo hi x
                                       && prefix_hit prefix (key_of x)) db))
      as -> by (destruct reverse; simpl; [symmetry; apply in_rev|tauto]).
    rewrite filter_In, andb_true_iff, prefix_hit_spec.
    unfold within; rewrite in_range_spec; tauto.
  - apply keys_sorted_in_direction, keys_sorted_filter, Hs.
Qed.

(** X2. When the bounds are in order and can be encoded, reverse iteration
    yields the pairs of forward iteration, backwards. *)
Theorem iter_reverse_of_forward db prefix start end_ s e :
  keys_sorted db ->
  prefix_bounds prefix start end_ = Ok (s, e) ->
  (forall s' e', s = Some s' -> e = Some e' -> le s' e') ->
  bound_ok s -> bound_ok e ->
  exists l,
    iter db prefix start end_ false = Ok l /\
    iter db prefix start end_ true = Ok (rev l).
Proof.
  intros Hs Hb Hle Hos Hoe.
  assert (Hsw : swap_bounds true (s, e) = (s, e)).
  { destruct s as [s'|], e as [e'|]; try reflexivity; simpl.
    now rewrite (proj2 (gtb_false_le s' e') (Hle _ _ eq_refl eq_refl)). }
  assert (Hdown : seeks_ok true s e) by (split; auto).
  assert (Hup : seeks_ok false s e) by (split; [auto|discriminate]).
  rewrite (@iter_as_filter db prefix start end_ true s e s e Hs Hb Hsw
                           Hdown).
  rewrite (@iter_as_filter db prefix start end_ false s e s e Hs Hb
                           eq_refl Hup).
  eexists; split; reflexivity.
Qed.

Lemma drop_until_head (q : entry V -> bool) l :
  match drop_until q l with
  | [] => True
  | x :: _ => q x = true
  end.
Proof.
  induction l as [|x l IH]; simpl; [exact I|].
  destruct (q x) eqn:E; [exact E|exact IH].
Qed.

(** X3. Forward iteration with [start] above [end] yields nothing: the
    bounds are swapped in the reverse case only.  [start], which the
    iterator seeks, is a string that the store can encode. *)
Theorem iter_forward_inverted_empty db prefix start end_ :
  Utf8.encodable start ->
  lt end_ start ->
  iter db prefix (Some start) (Some end_) false = Ok [].
Proof.
  intros He Hlt.
  assert (Hb : prefix_bounds prefix (Some start) (Some end_)
               = Ok (Some start, Some end_))
      by (destruct prefix as [[|]|]; reflexivity).
  rewrite (@iter_returns V db prefix (Some start) (Some end_) false
                         _ _ _ _ Hb eq_refl)
    by (split; [exact He|discriminate]).
  f_equal; unfold first_position, first_at_or_past.
  pose proof (drop_until_head (fun x => geb (key_of x) start) db) as Hd.
  destruct (drop_until _ db) as [|[k v] it]; [reflexivity|].
  cbn [iter_loop]; simpl in Hd.
  assert (at_or_above k (Some end_) = true) as ->; [|reflexivity].
  apply geb_le in Hd; apply geb_le, le_lteq; left.
  eauto using lt_le_trans.
Qed.

Lemma iter_loop_empty_prefix start end_ reverse (it : rdict_iter V) :
  iter_loop (Some []) start end_ reverse it
  = iter_loop None start end_ reverse it.
Proof.
  induction it as [|[k v] it IH]; [reflexivity|].
  cbn [iter_loop prefix_miss]; now rewrite IH.
Qed.

(** X4. The empty prefix is no prefix. *)
Theorem iter_empty_prefix db start end_ reverse :
  iter db (Some []) start end_ reverse = iter db None start end_ reverse.
Proof.
  unfold iter; cbn [prefix_bounds bind].
  destruct (swap_bounds reverse (start, end_)) as [lo hi].
  destruct (first_seek db lo hi reverse) as [it|]; cbn [bind];
    [|reflexivity].
  now rewrite iter_loop_empty_prefix.
Qed.

Lemma filter_map_key (q : pystr -> bool) l :
  map (@key_of V) (filter (fun x => q (key_of x)) l)
  = filter q (map (@key_of V) l).
Proof.
  induction l as [|x l IH]; simpl; [reflexivity|].
  destruct (q (key_of x)); simpl; now rewrite IH.
Qed.

(** X5. [keys(prefix=p)] is the list of the stored keys that start with
    [p], in ascending order, or descending with [reverse].  The prefix is
    a string that the store can encode; in reverse, where the iterator
    seeks the bound derived from the prefix, it does not end with
    U+D7FF, the character before the surrogates. *)
Theorem keys_of_prefix db (p : pystr) reverse :
  p <> [] -> last_char p < max_code_point -> keys_sorted db ->
  Utf8.encodable p -> (reverse = true -> last_char p <> 55295) ->
  keys db (Some p) None None reverse None
  = Ok (in_direction reverse
          (filter (fun k => startswith k p) (map (@key_of V) db))).
Proof.
  intros Hp Hlast Hs He Hsur; unfold keys, islice_list.
  rewrite (@iter_prefix_exact V db p reverse Hp Hlast Hs He Hsur).
  cbn [bind].
  f_equal; rewrite <- filter_map_key.
  destruct reverse; simpl; [apply map_rev|reflexivity].
Qed.

(** X6. A prefix that ends with the largest code point needs an [end]:
    without one the iteration raises [ValueError], whatever the other
    arguments; with one it returns, when prefix, [start] and [end] are
    strings that the store can encode. *)
Theorem iter_prefix_last_char_max db (q : pystr) start reverse :
  iter db (Some (q ++ [max_code_point])) start None reverse
  = Raise ValueError /\
  forall e,
    Utf8.encodable q -> bound_ok start -> Utf8.encodable e ->
    exists l,
      iter db (Some (q ++ [max_code_point])) start (Some e) reverse = Ok l.
Proof.
  split; [apply iter_prefix_max_char_raises|].
  intros e Hq Hstart He.
  assert (Hpre : Utf8.encodable (q ++ [max_code_point]))
    by (apply encodable_app; split; [exact Hq|now repeat constructor]).
  assert (exists s, prefix_bounds (Some (q ++ [max_code_point])) start
                                  (Some e) = Ok (Some s, Some e)
                    /\ Utf8.encodable s) as (s & Hb & Hs).
  { unfold prefix_bounds; destruct (q ++ _) eqn:E; [now destruct q|].
    destruct start as [s|]; eauto. }
  destruct (swap_bounds reverse (Some s, Some e)) as [lo hi] eqn:Hsw.
  assert (Hok : seeks_ok reverse lo hi).
  { unfold swap_bounds in Hsw; destruct reverse;
      [destruct (gtb s e)|]; injection Hsw as <- <-; split; simpl; auto. }
  rewrite (@iter_returns V db _ _ _ reverse _ _ lo hi Hb Hsw Hok); eauto.
Qed.

End IterAll.

(** ** [keys], [values] and [items] *)

Section Collections.

Variable V : Type.

(** X7. [keys] and [values] are the two halves of [items]: for the same
    arguments they return the keys and the values of the pairs that
    [items] returns, in the same order, and raise when [items] raises;
    [iter_keys] and [iter_values] yield the same. *)
Theorem keys_values_of_items (db : rdict V) prefix start end_ reverse limit :
  keys db prefix start end_ reverse limit
  = (l <- items db prefix start end_ reverse limit ;;
     Ok (map (@key_of V) l)) /\
  values db prefix start end_ reverse limit
  = (l <- items db prefix start end_ reverse limit ;;
     Ok (map (@snd pystr V) l)) /\
  iter_keys db prefix start end_ reverse limit
  = keys db prefix start end_ reverse limit /\
  iter_values db prefix start end_ reverse limit
  = values db prefix start end_ reverse limit /\
  forall l, items db prefix start end_ reverse limit = Ok l ->
            exists ks vs,
              keys db prefix start end_ reverse limit = Ok ks /\
              values db prefix start end_ reverse limit = Ok vs /\
              combine ks vs = l.
Proof.
  assert (Hk : keys db prefix start end_ reverse limit
               = (l <- items db prefix start end_ reverse limit ;;
                  Ok (map (@key_of V) l))).
  { unfold keys, items, islice_list.
    destruct limit as [n|]; [|reflexivity].
    destruct ((n <? 0) || (sys_maxsize <? n))%Z; [reflexivity|].
    destruct (n =? 0)%Z; [reflexivity|].
    destruct (iter _ _ _ _ _); simpl; [|reflexivity].
    now rewrite firstn_map. }
  assert (Hv : values db prefix start end_ reverse limit
               = (l <- items db prefix start end_ reverse limit ;;
                  Ok (map (@snd pystr V) l))).
  { unfold values, items, islice_list.
    destruct limit as [n|]; [|reflexivity].
    destruct ((n <? 0) || (sys_maxsize <? n))%Z; [reflexivity|].
    destruct (n =? 0)%Z; [reflexivity|].
    destruct (iter _ _ _ _ _); simpl; [|reflexivity].
    now rewrite firstn_map. }
  repeat split; auto.
  intros l Hl; rewrite Hk, Hv, Hl; cbn [bind].
  eexists _, _; repeat split.
  clear; induction l as [|[k v] l IH]; simpl; [reflexivity|].
  now rewrite IH.
Qed.

End Collections.

(** ** Reading, writing and deleting *)

Section StoreOps.

Variable V : Type.
Implicit Types (db : rdict V) (key : pystr).

Lemma eqb_neq (a b : pystr) : a <> b -> eqb a b = false.
Proof.
  intros H; destruct (eqb a b) eqn:E; [|reflexivity].
  now apply eqb_eq in E.
Qed.

Lemma db_get_put_other db key key' (value : V) :
  key' <> key -> db_get (db_put db key value) key' = db_get db key'.
Proof.
  intros Hne; induction db as [|[k0 v0] db IH]; simpl.
  - now rewrite eqb_neq by congruence.
  - destruct (compare key k0) eqn:E; simpl.
    + apply compare_eq in E; subst k0; now rewrite eqb_neq by congruence.
    + now rewrite eqb_neq by congruence.
    + now rewrite IH.
Qed.

Lemma db_get_delete_other db key key' :
  key' <> key -> db_get (db_delete db key) key' = db_get db key'.
Proof.
  intros Hne; induction db as [|[k0 v0] db IH]; simpl; [reflexivity|].
  destruct (eqb k0 key) eqn:E.
  - apply eqb_eq in E; subst k0.
    now rewrite eqb_neq by congruence.
  - simpl; destruct (eqb k0 key'); [reflexivity|exact IH].
Qed.

(** [get] reads a key in two stores alike when RocksDB does. *)
Lemma get_congr strict db db' key (default : option V) :
  db_get db' key = db_get db key ->
  get strict db' key default = get strict db key default.
Proof. intros H; unfold get, rdict_get; now rewrite H. Qed.

Lemma db_put_put db key (v1 v2 : V) :
  db_put (db_put db key v1) key v2 = db_put db key v2.
Proof.
  induction db as [|[k0 v0] db IH]; simpl.
  - now rewrite compare_refl.
  - destruct (compare key k0) eqn:E; simpl.
    + now rewrite compare_refl.
    + now rewrite compare_refl.
    + now rewrite E, IH.
Qed.

Lemma db_delete_put db key (value : V) :
  ~ has_key db key -> db_delete (db_put db key value) key = db.
Proof.
  unfold has_key; induction db as [|[k0 v0] db IH]; simpl; intros Hno.
  - now rewrite (proj2 (eqb_eq key key)).
  - destruct (compare key k0) eqn:E; simpl.
    + apply compare_eq in E; subst k0; tauto.
    + now rewrite (proj2 (eqb_eq key key)).
    + rewrite eqb_neq by tauto.
      rewrite IH by tauto; reflexivity.
Qed.

(** X8. What is put is read back: after [put(key, value)] the store is
    still in key order, [get(key)] returns the value, and the other keys
    read as before. *)
Theorem put_then_get strict db key (value : V) db' (default : option V) :
  keys_sorted db -> put db key value = Ok db' ->
  keys_sorted db' /\
  get strict db' key default = Ok (Some value) /\
  forall key', key' <> key ->
               get strict db' key' default = get strict db key' default.
Proof.
  intros Hs Hput; split; [eauto using put_sorted|].
  split; [eauto using get_after_put|].
  intros key' Hne; apply put_inv in Hput as [_ ->].
  now apply get_congr, db_get_put_other.
Qed.

(** X9. What is deleted is gone: [delete(key)] returns for every key that
    the store can encode; after it the store is still in key order,
    [get(key)] returns the default, and the other keys read as before. *)
Theorem delete_then_get strict db key (default : option V) :
  Utf8.encodable key ->
  keys_sorted db ->
  exists db',
    delete db key = Ok db' /\
    keys_sorted db' /\
    ~ has_key db' key /\
    get strict db' key default = Ok default /\
    forall key', key' <> key ->
                 get strict db' key' default = get strict db key' default.
Proof.
  intros He Hs; pose proof (delete_encodable db He) as Hd.
  exists (db_delete db key); split; [exact Hd|].
  split; [eauto using delete_sorted|].
  destruct (@get_after_delete V strict db key _ default Hs Hd)
    as [Hno Hget].
  repeat split; auto.
  intros key' Hne; now apply get_congr, db_get_delete_other.
Qed.

(** X10. A second [put] of the same key overwrites the first: the store is
    the one that the second [put] alone would have made. *)
Theorem put_overwrites db key (v1 v2 : V) :
  (db1 <- put db key v1 ;; put db1 key v2) = put db key v2.
Proof.
  unfold put, rdict_put, encode_key.
  destruct (Utf8.encode key) as [b|]; cbn [bind]; [|reflexivity].
  now rewrite db_put_put.
Qed.

(** X11. When a key that was not stored has been put, deleting it again
    returns and gives back the store as it was. *)
Theorem put_then_delete db key (value : V) db1 :
  ~ has_key db key ->
  put db key value = Ok db1 ->
  delete db1 key = Ok db.
Proof.
  intros Hno [He ->]%put_inv.
  rewrite (delete_encodable _ He); f_equal.
  now apply db_delete_put.
Qed.

Lemma apply_op_sorted db (op : batch_op V) :
  keys_sorted db -> keys_sorted (apply_op db op).
Proof. destruct op; simpl; auto using db_put_sorted, db_delete_sorted. Qed.

(** X12. [write(batch)] always returns and keeps the store in key order;
    afterwards a key reads as its last operation in the batch left it: the
    value of a put, the default after a delete, and as before when the
    batch does not name it. *)
Theorem write_last_op_wins strict (batch : list (batch_op V)) db
        key (default : option V) :
  keys_sorted db ->
  exists db',
    write db batch = Ok db' /\
    keys_sorted db' /\
    get strict db' key default
    = match last_op batch key with
      | None => get strict db key default
      | Some None => Ok default
      | Some (Some v) => Ok (Some v)
      end.
Proof.
  revert db; induction batch as [|op batch IH]; intros db Hs.
  - exists db; repeat split; auto.
  - pose proof (apply_op_sorted op Hs) as Hs1.
    destruct (IH (apply_op db op) Hs1) as (db' & Hw & Hs' & Hget).
    exists db'; cbn [write last_op].
    split; [exact Hw|split; [exact Hs'|]].
    rewrite Hget; destruct (last_op batch key) as [o|]; [reflexivity|].
    destruct op as [k v Hk|k Hk]; cbn [apply_op].
    + destruct (eqb k key) eqn:E.
      * apply eqb_eq in E; subst k.
        exact (@get_after_put V strict db key v _ default Hs
                              (put_encodable db v Hk)).
      * apply get_congr, db_get_put_other.
        intros ->; now rewrite (proj2 (eqb_eq k k)) in E.
    + destruct (eqb k key) eqn:E.
      * apply eqb_eq in E; subst k.
        apply (@get_after_delete V strict db key _ default Hs
                                 (delete_encodable db Hk)).
      * apply get_congr, db_get_delete_other.
        intros ->; now rewrite (proj2 (eqb_eq k k)) in E.
Qed.

(** X13. For a stored key [key_exist] returns [true] and the stored
    value, whatever the filter of the store answers. *)
Theorem key_exist_stored strict db key (v : V) may :
  keys_sorted db -> In (key, v) db -> may_exist_ok db key may ->
  key_exist strict db key may = Ok (true, Some v).
Proof.
  intros Hs Hin (He & Hyes & Hval); destruct may as [existing value].
  simpl in *; rewrite Hyes
    by (unfold has_key; change key with (key_of (key, v)); now apply in_map).
  destruct value as [v'|].
  - pose proof (@db_get_present V db key v Hs Hin) as E1.
    pose proof (@db_get_present V db key v' Hs (Hval v' eq_refl)) as E2.
    rewrite E1 in E2; now injection E2 as ->.
  - now rewrite (@rdict_get_present V strict db key v None He Hs Hin).
Qed.

(** X14. For a key that is not stored [key_exist] returns no value.  It
    answers [false], unless the filter says that the key may exist and the
    store returns the default for it instead of raising [KeyError]: then
    the answer is [(true, None)]. *)
Theorem key_exist_absent strict db key may :
  ~ has_key db key -> may_exist_ok db key may ->
  key_exist strict db key may = Ok (fst may && negb strict, None).
Proof.
  intros Hno (He & _ & Hval); destruct may as [existing [v|]]; simpl in *.
  - destruct Hno; unfold has_key.
    change key with (key_of (key, v)); apply in_map; auto.
  - destruct existing; [|reflexivity].
    rewrite rdict_get_absent by assumption.
    now destruct strict.
Qed.

End StoreOps.

(** ** More on the cursor *)

Section CursorMore.

Import Utf8 Utf8Facts Base64 Base64Facts.

Lemma encode_cursor_value k c :
  _encode_cursor k = Ok c ->
  exists b, encode k = Ok b /\ c = urlsafe_b64encode b.
Proof.
  unfold _encode_cursor.
  destruct (encode k) as [b|] eqn:E; [|discriminate]; simpl.
  rewrite decode_ascii by apply urlsafe_b64encode_ascii.
  intros [= <-]; eauto.
Qed.

(** X15. Two keys with the same cursor are the same key: a cursor stands
    for one key only. *)
Theorem encode_cursor_injective (k1 k2 c : pystr) :
  _encode_cursor k1 = Ok c -> _encode_cursor k2 = Ok c -> k1 = k2.
Proof.
  intros H1 H2.
  destruct (decode_encode_cursor (encode_cursor_ok_encodable _ H1))
    as (c1 & E1 & D1 & _).
  destruct (decode_encode_cursor (encode_cursor_ok_encodable _ H2))
    as (c2 & E2 & D2 & _).
  rewrite H1 in E1; rewrite H2 in E2.
  injection E1 as <-; injection E2 as <-.
  rewrite D1 in D2; injection D2 as D2.
  now apply app_inj_tail in D2.
Qed.

Lemma b2a_url_safe x : url_safe_char (b2a x) = true.
Proof.
  unfold b2a, url_safe_char.
  destruct (N.ltb_spec x 26);
    [|destruct (N.ltb_spec x 52);
      [|destruct (N.ltb_spec x 62); [|destruct (N.eqb_spec x 62)]]];
    settle_tests; reflexivity.
Qed.

(** X16. A cursor is made of the characters [A-Z], [a-z], [0-9], [-], [_]
    and [=] only, in groups of four, and it is empty for the empty key
    alone. *)
Theorem encode_cursor_url_safe (k c : pystr) :
  _encode_cursor k = Ok c ->
  Forall (fun x => url_safe_char x = true) c /\
  (length c mod 4 = 0)%nat /\
  (c = [] <-> k = []).
Proof.
  intros H; destruct (encode_cursor_value _ H) as (b & Eb & ->).
  split; [|split].
  - clear; induction b as [|x|x y|x y z b IH] using list_ind3; simpl;
      repeat (apply Forall_cons; [first [apply b2a_url_safe|reflexivity]|]);
      auto.
  - assert (exists n, length (urlsafe_b64encode b) = (n * 4)%nat)
      as [n ->].
    { clear; induction b as [|x|x y|x y z b [n IH]] using list_ind3;
        [now exists 0%nat|now exists 1%nat|now exists 1%nat|].
      exists (S n); cbn [urlsafe_b64encode length]; rewrite IH; lia. }
    apply Nat.Div0.mod_mul.
  - split.
    + intros Hc; destruct k as [|a k]; [reflexivity|exfalso].
      simpl in Eb.
      destruct (encode_char a) as [ba|] eqn:Ea; [|discriminate].
      destruct (encode k) as [bk|]; [|discriminate].
      simpl in Eb; injection Eb as <-.
      apply encode_char_nonempty in Ea.
      destruct ba as [|x ba]; [congruence|].
      now destruct ba as [|y [|z ba]], bk as [|y' [|z' bk]].
    + intros ->; simpl in Eb; now injection Eb as <-.
Qed.

(** X17. [_encode_cursor] returns for the keys made of code points that
    UTF-8 encodes, and raises [UnicodeEncodeError] for the others, which
    are the keys with a surrogate. *)
Theorem encode_cursor_raises (k : pystr) :
  (forallb is_scalar k = true -> exists c, _encode_cursor k = Ok c) /\
  (forallb is_scalar k = false ->
   _encode_cursor k = Raise UnicodeEncodeError).
Proof.
  split.
  - intros H.
    assert (Hk : encodable k).
    { apply Forall_forall; rewrite forallb_forall in H; exact H. }
    destruct (decode_encode_cursor Hk) as (c & Ec & _); eauto.
  - unfold _encode_cursor; induction k as [|a k IH]; simpl;
      [discriminate|].
    destruct (is_scalar a) eqn:Ea; simpl.
    + intros H; destruct (encode_char_scalar a Ea) as [ba ->]; simpl.
      specialize (IH H).
      destruct (encode k) as [bk|]; simpl in *; [|exact IH].
      rewrite decode_ascii in IH by apply urlsafe_b64encode_ascii.
      discriminate.
    + intros _; now rewrite encode_char_not_scalar.
Qed.

Lemma data_char_decodes ch :
  url_safe_data_char ch = true ->
  (urlsafe_translate ch =? pad) = false /\
  exists x, a2b (urlsafe_translate ch) = Some x.
Proof.
  unfold url_safe_data_char.
  rewrite !orb_true_iff, !andb_true_iff, !N.leb_le, !N.eqb_eq.
  intros [[[[[H1 H2]|[H1 H2]]|[H1 H2]]|H]|H];
    unfold urlsafe_translate, a2b, pad; settle_tests; cbn [andb];
    split; try reflexivity; eauto.
Qed.

Lemma data_char_ascii ch : url_safe_data_char ch = true -> ch < 128.
Proof.
  unfold url_safe_data_char.
  rewrite !orb_true_iff, !andb_true_iff, !N.leb_le, !N.eqb_eq; lia.
Qed.

(** The decoder on data characters alone: it fails when they do not fill
    the last group of four. *)
Lemma a2b_base64_incomplete (s : bytes) :
  Forall (fun ch => url_safe_data_char ch = true) s ->
  forall quad_pos leftchar pads out,
    quad_pos < 4 ->
    ((N.to_nat quad_pos + length s) mod 4 <> 0)%nat ->
    a2b_base64 (map urlsafe_translate s) quad_pos leftchar pads out
    = Raise BinasciiError.
Proof.
  induction 1 as [|ch s Hch _ IH];
    intros quad_pos leftchar pads out Hq Hlen.
  - cbn [map a2b_base64].
    destruct (N.eqb_spec quad_pos 0) as [->|]; [|reflexivity].
    now destruct Hlen.
  - destruct (data_char_decodes _ Hch) as [Hpad [x Hx]].
    cbn [map a2b_base64]; rewrite Hpad, Hx.
    cbn [length] in Hlen.
    destruct (N.eqb_spec quad_pos 0) as [->|];
      [apply IH; [lia|exact Hlen]|].
    destruct (N.eqb_spec quad_pos 1) as [->|];
      [apply IH; [lia|exact Hlen]|].
    destruct (N.eqb_spec quad_pos 2) as [->|];
      [apply IH; [lia|exact Hlen]|].
    assert (quad_pos = 3) as -> by lia.
    apply IH; [lia|].
    replace (N.to_nat 3 + S (length s))%nat
      with (N.to_nat 0 + length s + 1 * 4)%nat in Hlen by lia.
    now rewrite Nat.Div0.mod_add in Hlen.
Qed.

(** X18. A cursor cut short does not resume anywhere: when it is made of
    the data characters of a cursor and their number is not a multiple of
    four, [_decode_cursor] raises. *)
Theorem decode_cursor_truncated (c : pystr) :
  Forall (fun ch => url_safe_data_char ch = true) c ->
  (length c mod 4 <> 0)%nat ->
  _decode_cursor c = Raise BinasciiError.
Proof.
  intros Hc Hlen; unfold _decode_cursor.
  rewrite encode_ascii
    by (eapply Forall_impl; [|exact Hc]; apply data_char_ascii).
  cbn [bind]; unfold urlsafe_b64decode.
  now rewrite a2b_base64_incomplete.
Qed.

End CursorMore.

(** ** More on [paginate] *)

Section PaginateMore.

Variable V : Type.
Implicit Types (db l all : list (entry V)) (r : page V).

(** X19. [paginate] from [iter]: for a page size from 0 to below
    [sys.maxsize], when the cursor decodes and the iteration returns,
    [paginate] returns; its page is the first [page_size] pairs that
    [iter] yields from the resume point, [has_more] tells whether [iter]
    yields more than these, and [next_cursor] is the cursor of the last
    pair of the page in that case. *)
Theorem paginate_page_of_iter db page_size cursor include_cursor prefix
        start end_ reverse start' all :
  (0 <= page_size < sys_maxsize)%Z ->
  keys_encodable db ->
  resume_start cursor start = Ok start' ->
  iter db prefix start' end_ reverse = Ok all ->
  exists r,
    paginate db page_size cursor include_cursor prefix start end_ reverse
    = Ok r /\
    page_items r = firstn (Z.to_nat page_size) all /\
    has_more r = (page_size <? Z.of_nat (length all))%Z /\
    (has_more r = false -> next_cursor r = None) /\
    (has_more r = true ->
     forall k v, last_entry (page_items r) = Some (k, v) ->
                 exists c, _encode_cursor k = Ok c /\ next_cursor r = Some c).
Proof.
  intros Hp Hk Hst Hit.
  destruct (@paginate_returns V db page_size cursor include_cursor prefix
                              start end_ reverse start' all Hp Hk Hst Hit)
    as [r Hr].
  destruct (@paginate_of_iter V db page_size cursor include_cursor prefix
                              start end_ reverse start' all r (proj1 Hp)
                              Hst Hit Hr)
    as (Hitems & Hmore & Hnext).
  exists r; repeat split; auto.
  - intros Hf; now rewrite Hf in Hnext.
  - intros Ht k v Hl; now rewrite Ht, Hl in Hnext.
Qed.

(** X20. Reading a whole store page by page: for every store in key
    order, every page size from 1 to below [sys.maxsize] and enough calls,
    the client gets all the pairs of the store, each once and in key
    order; every page but the last is full and has a cursor, and the last
    one says that there is no more.  With pages of one pair the empty
    string must not be a key.  The prefix, when one is passed, is a string
    that the store can encode. *)
Theorem paginate_all_complete db (p calls : nat) prefix :
  keys_sorted db -> keys_encodable db -> prefix_covers prefix db ->
  bound_ok prefix ->
  (1 <= p)%nat -> (Z.of_nat p < sys_maxsize)%Z ->
  ((2 <= p)%nat \/ ~ has_key db []) ->
  (1 <= calls)%nat -> (length db <= calls * p)%nat ->
  exists init lastp,
    paginate_all calls db (Z.of_nat p) prefix None = Ok (init ++ [lastp]) /\
    concat (map (@page_items V) (init ++ [lastp])) = db /\
    Forall (fun q => has_more q = true /\ next_cursor q <> None
                     /\ length (page_items q) = p) init /\
    has_more lastp = false /\
    next_cursor lastp = None.
Proof.
  intros Hs Hk Hcov Hpre Hp Hmax Hfirst Hc Hlen.
  destruct (@paginate_all_collects V db p prefix Hs Hk Hcov Hpre Hp Hmax
                                   Hfirst calls
                                   [] db None eq_refl eq_refl Hc Hlen)
    as (init & lastp & H1 & H2 & H3 & H4 & H5 & _).
  exists init, lastp; auto.
Qed.

(** X22. The cursor of the empty key is the empty string, which [paginate]
    takes for no cursor.  A client that reads, in pages of one pair, a
    store whose first key is the empty string gets the first page at every
    call, and never another pair. *)
Theorem paginate_empty_key_loops (v : V) (e : entry V) db (calls : nat) :
  keys_sorted (([], v) :: e :: db) ->
  paginate_all calls (([], v) :: e :: db) 1 None None
  = Ok (repeat {| page_items := [([], v)]; has_more := true;
                  next_cursor := Some []; prev_cursor := None |} calls).
Proof.
  intros Hs.
  assert (Hpage : forall cursor,
             cursor = None \/ cursor = Some [] ->
             paginate (([], v) :: e :: db) 1 cursor true None None None false
             = Ok {| page_items := [([], v)]; has_more := true;
                     next_cursor := Some []; prev_cursor := None |}).
  { intros cursor Hc; unfold paginate, items.
    assert (resume_start cursor None = Ok None) as ->
        by (destruct Hc as [-> | ->]; reflexivity).
    cbn [bind].
    rewrite (@islice_list_ok _ _ (1 + 1)%Z (([], v) :: e :: db))
      by (try (apply iter_unbounded; auto; exact I);
          unfold sys_maxsize; lia).
    destruct Hc as [-> | ->]; reflexivity. }
  assert (Hall : forall cursor,
             cursor = None \/ cursor = Some [] ->
             paginate_all calls (([], v) :: e :: db) 1 None cursor
             = Ok (repeat {| page_items := [([], v)]; has_more := true;
                             next_cursor := Some [];
                             prev_cursor := None |} calls)).
  { induction calls as [|n IH]; intros cursor Hc; [reflexivity|].
    cbn [paginate_all]; rewrite (Hpage cursor Hc); cbn [bind has_more].
    cbn [next_cursor]; rewrite IH by auto; reflexivity. }
  apply Hall; auto.
Qed.

Lemma iter_reverse_unbounded db :
  keys_sorted db -> iter db None None None true = Ok (rev db).
Proof.
  intros Hs.
  rewrite iter_backward_filter with (lo := None) (hi := None)
    by (auto; exact I).
  now rewrite filter_all by (apply Forall_forall; reflexivity).
Qed.

(** X23. In reverse the cursor is still the lower bound.  After a first
    page of a reverse listing, the call with its [next_cursor] returns the
    pairs of that page again, the last one left out, and says that there is
    no more: the pairs below the cursor are never reached.  The page size
    is one that [islice] accepts. *)
Theorem paginate_reverse_stuck db (top below : list (entry V)) (k : pystr)
        (v : V) include_cursor :
  keys_sorted db -> keys_encodable db ->
  rev db = top ++ (k, v) :: below -> below <> [] ->
  (Z.of_nat (S (length top)) < sys_maxsize)%Z ->
  exists r1 r2 c,
    paginate db (Z.of_nat (S (length top))) None include_cursor
             None None None true = Ok r1 /\
    page_items r1 = top ++ [(k, v)] /\
    has_more r1 = true /\
    next_cursor r1 = Some c /\
    paginate db (Z.of_nat (S (length top))) (Some c) include_cursor
             None None None true = Ok r2 /\
    page_items r2 = top /\
    has_more r2 = false /\
    next_cursor r2 = None.
Proof.
  intros Hs Hk Hrev Hbelow.
  assert (Hp0 : (0 <= Z.of_nat (S (length top)))%Z) by lia.
  assert (Hdb : db = (rev below ++ [(k, v)]) ++ rev top).
  { rewrite <- (rev_involutive db), Hrev, rev_app_distr; simpl.
    reflexivity. }
  assert (Hin : In (k, v) db).
  { rewrite Hdb; apply in_or_app; left; apply in_or_app; right; now left. }
  assert (Hne : k <> []).
  { destruct below as [|x below]; [congruence|].
    apply lt_nonempty with (key_of x).
    rewrite Hdb, <- app_assoc in Hs.
    apply (keys_sorted_app_lt _ _ Hs x (k, v)).
    - apply in_rev; rewrite rev_involutive; now left.
    - now left. }
  assert (Hkenc : Utf8.encodable k).
  { unfold keys_encodable in Hk; rewrite Forall_forall in Hk.
    exact (Hk _ Hin). }
  assert (Hsucc : Utf8.encodable (k ++ [0])) by now apply encodable_succ.
  destruct (decode_encode_cursor Hkenc) as (c & Ec & Dc & Hc).
  pose proof (proj2 (resume_start_cursor None Ec Hne)) as Hst.
  (* what the two iterations yield *)
  pose proof (iter_reverse_unbounded Hs) as Hit1.
  assert (Hfirst : firstn (Z.to_nat (Z.of_nat (S (length top))))
                          (top ++ (k, v) :: below) = top ++ [(k, v)]).
  { rewrite Nat2Z.id.
    replace (S (length top)) with (length top + 1)%nat by lia.
    now rewrite firstn_app_2. }
  assert (Hfilter : filter (fun x => within (Some (k ++ [0])) None x
                                     && prefix_hit None (key_of x)) db
                    = rev top).
  { assert (Hlast : last_entry (rev below ++ [(k, v)]) = Some (k, v))
      by now rewrite last_entry_app.
    rewrite Hdb in Hs.
    destruct (@iter_resumed V _ (rev top) None k v c Hs I Hlast Hkenc Dc
                            (Hc Hne)) as (st & Hst' & Hfw).
    rewrite <- Hdb in Hfw.
    rewrite Hst in Hst'; injection Hst' as <-.
    rewrite <- Hdb in Hs.
    rewrite (@iter_as_filter V db None (Some (k ++ [0])) None false
                             (Some (k ++ [0])) None (Some (k ++ [0])) None
                             Hs eq_refl eq_refl) in Hfw
      by (split; [exact Hsucc|discriminate]).
    now injection Hfw. }
  assert (Hit2 : iter db None (Some (k ++ [0])) None true = Ok top).
  { rewrite (@iter_as_filter V db None (Some (k ++ [0])) None true
                             (Some (k ++ [0])) None (Some (k ++ [0])) None
                             Hs eq_refl eq_refl)
      by (split; [exact Hsucc|intros _; exact I]).
    unfold in_direction; now rewrite Hfilter, rev_involutive. }
  assert (Hlen : (Z.of_nat (S (length top))
                  <? Z.of_nat (length (top ++ (k, v) :: below)))%Z = true).
  { apply Z.ltb_lt; rewrite length_app; simpl.
    destruct below; [congruence|simpl; lia]. }
  assert (Hlen2 : (Z.of_nat (S (length top)) <? Z.of_nat (length top))%Z
                  = false) by (apply Z.ltb_ge; lia).
  assert (Hall2 : firstn (Z.to_nat (Z.of_nat (S (length top)))) top = top)
    by (apply firstn_all2; lia).
  (* the two pages *)
  intros Hmax.
  pose proof (conj Hp0 Hmax) as Hp.
  destruct (@paginate_returns V db _ None include_cursor None None None true
                              None _ Hp Hk eq_refl Hit1) as [r1 Hr1].
  destruct (@paginate_of_iter V db _ None include_cursor None None None true
                              None _ r1 Hp0 eq_refl Hit1 Hr1)
    as (Hitems1 & Hmore1 & Hnext1).
  destruct (@paginate_returns V db _ (Some c) include_cursor None None None
                              true _ _ Hp Hk Hst Hit2) as [r2 Hr2].
  destruct (@paginate_of_iter V db _ (Some c) include_cursor None None None
                              true _ _ r2 Hp0 Hst Hit2 Hr2)
    as (Hitems2 & Hmore2 & Hnext2).
  clear Hp Hmax.
  rewrite Hrev in Hitems1, Hmore1.
  rewrite Hfirst in Hitems1.
  rewrite Hlen in Hmore1.
  rewrite Hmore1, Hitems1, last_entry_app in Hnext1 by discriminate.
  simpl in Hnext1; destruct Hnext1 as (c' & Ec' & Hn1).
  rewrite Ec in Ec'; injection Ec' as <-.
  rewrite Hlen2 in Hmore2.
  rewrite Hmore2 in Hnext2; rewrite Hall2 in Hitems2.
  exists r1, r2, c; repeat split; assumption.
Qed.

(** X24. With a page size of 0 the page is empty and has no cursor, and
    [has_more] is true exactly when the iteration yields something. *)
Theorem paginate_zero db cursor include_cursor prefix start end_ reverse
        start' all :
  resume_start cursor start = Ok start' ->
  iter db prefix start' end_ reverse = Ok all ->
  exists r,
    paginate db 0 cursor include_cursor prefix start end_ reverse = Ok r /\
    page_items r = [] /\
    next_cursor r = None /\
    (has_more r = true <-> all <> []).
Proof.
  intros Hst Hit; unfold paginate, items; rewrite Hst; cbn [bind].
  rewrite (@islice_list_ok _ _ (0 + 1)%Z all)
    by (auto; unfold sys_maxsize; lia).
  cbn [bind].
  destruct all as [|x all]; eexists; (split; [reflexivity|]); simpl;
    (split; [reflexivity|split; [reflexivity|split]]).
  - discriminate.
  - intros H; now destruct H.
  - discriminate.
  - reflexivity.
Qed.

(** X25. With a negative page size: below -1 the call raises [ValueError]
    (the limit of [islice] is negative); at -1 it returns an empty page
    that says that there is more, without reading the store. *)
Theorem paginate_negative db page_size cursor include_cursor prefix start
        end_ reverse start' :
  resume_start cursor start = Ok start' ->
  ((page_size < -1)%Z ->
   paginate db page_size cursor include_cursor prefix start end_ reverse
   = Raise ValueError) /\
  (page_size = (-1)%Z ->
   exists r,
     paginate db page_size cursor include_cursor prefix start end_ reverse
     = Ok r /\
     page_items r = [] /\ has_more r = true /\ next_cursor r = None).
Proof.
  intros Hst; split.
  - intros Hp; unfold paginate, items, islice_list; rewrite Hst.
    cbn [bind].
    now destruct (Z.ltb_spec (page_size + 1) 0); [|lia].
  - intros ->; unfold paginate, items; rewrite Hst; cbn [bind].
    eexists; split; [reflexivity|]; simpl; auto.
Qed.

End PaginateMore.

(** ** The further properties on the sample stores *)

Module MoreSampleFacts.
Import Sample.

Lemma ten_users_sorted : keys_sorted ten_users.
Proof. now apply keys_sortedb_sound. Qed.

Lemma ten_users_encodable : keys_encodable ten_users.
Proof. now apply keys_encodableb_sound. Qed.

Lemma user_prefix_encodable : Utf8.encodable user_prefix.
Proof. apply encodable_forallb; reflexivity. Qed.

Lemma user_04_encodable : Utf8.encodable user_04.
Proof. apply encodable_forallb; reflexivity. Qed.

Lemma user_99_encodable : Utf8.encodable user_99.
Proof. apply encodable_forallb; reflexivity. Qed.

Lemma iter_exact_witness :
  keys_sorted users /\
  prefix_bounds (Some user_prefix) (Some user_02) (Some user_05)
  = Ok (Some user_02, Some user_05) /\
  swap_bounds true (Some user_02, Some user_05)
  = (Some user_02, Some user_05) /\
  seeks_ok true (Some user_02) (Some user_05) /\
  exists l,
    iter users (Some user_prefix) (Some user_02) (Some user_05) true
    = Ok l /\
    (forall x, In x l <->
               In x users /\
               key_in_range (Some user_02) (Some user_05) (key_of x) /\
               forall p, Some user_prefix = Some p ->
                         startswith (key_of x) p = true)
    /\ keys_in_order true l.
Proof.
  assert (H : seeks_ok true (Some user_02) (Some user_05)).
  { split; [exact SampleFacts.user_02_encodable|].
    intros _; exact SampleFacts.user_05_encodable. }
  split; [exact SampleFacts.users_sorted|].
  split; [reflexivity|].
  split; [reflexivity|].
  split; [exact H|].
  exact (@iter_exact pystr users (Some user_prefix) (Some user_02)
                     (Some user_05) true _ _ _ _
                     SampleFacts.users_sorted eq_refl eq_refl H).
Defined.

Lemma iter_reverse_of_forward_witness :
  keys_sorted users /\
  prefix_bounds (Some user_prefix) None (Some user_04)
  = Ok (Some user_prefix, Some user_04) /\
  (forall s' e', Some user_prefix = Some s' -> Some user_04 = Some e' ->
                 le s' e') /\
  bound_ok (Some user_prefix) /\ bound_ok (Some user_04) /\
  exists l,
    iter users (Some user_prefix) None (Some user_04) false = Ok l /\
    iter users (Some user_prefix) None (Some user_04) true = Ok (rev l).
Proof.
  assert (H : forall s' e', Some user_prefix = Some s' ->
                            Some user_04 = Some e' -> le s' e')
    by (intros s' e' [= <-] [= <-]; discriminate).
  split; [exact SampleFacts.users_sorted|].
  split; [reflexivity|].
  split; [exact H|].
  split; [exact user_prefix_encodable|].
  split; [exact user_04_encodable|].
  exact (@iter_reverse_of_forward pystr users (Some user_prefix) None
                                  (Some user_04) _ _
                                  SampleFacts.users_sorted eq_refl H
                                  user_prefix_encodable user_04_encodable).
Defined.

Lemma iter_forward_inverted_empty_witness :
  Utf8.encodable user_05 /\
  lt user_02 user_05 /\
  iter users None (Some user_05) (Some user_02) false = Ok [].
Proof.
  split; [exact SampleFacts.user_05_encodable|].
  split; [reflexivity|].
  apply (@iter_forward_inverted_empty pystr users None user_05 user_02);
    [exact SampleFacts.user_05_encodable|reflexivity].
Defined.

Lemma keys_of_prefix_witness :
  user_prefix <> [] /\ last_char user_prefix < max_code_point /\
  keys_sorted users /\
  Utf8.encodable user_prefix /\
  (true = true -> last_char user_prefix <> 55295) /\
  keys users (Some user_prefix) None None true None
  = Ok (in_direction true
          (filter (fun k => startswith k user_prefix)
                  (map (@key_of pystr) users))).
Proof.
  assert (H1 : user_prefix <> []) by discriminate.
  assert (H2 : last_char user_prefix < max_code_point) by reflexivity.
  assert (H3 : true = true -> last_char user_prefix <> 55295)
    by (intros _; discriminate).
  split; [exact H1|split; [exact H2|split]];
    [exact SampleFacts.users_sorted|].
  split; [exact user_prefix_encodable|split; [exact H3|]].
  exact (@keys_of_prefix pystr users user_prefix true H1 H2
                         SampleFacts.users_sorted user_prefix_encodable H3).
Defined.

Lemma put_then_get_witness :
  keys_sorted users /\
  put users user_99 bob = Ok (db_put users user_99 bob) /\
  keys_sorted (db_put users user_99 bob) /\
  get false (db_put users user_99 bob) user_99 None = Ok (Some bob) /\
  forall key', key' <> user_99 ->
               get false (db_put users user_99 bob) key' None
               = get false users key' None.
Proof.
  split; [exact SampleFacts.users_sorted|].
  split; [reflexivity|].
  exact (@put_then_get pystr false users user_99 bob _ None
                       SampleFacts.users_sorted eq_refl).
Defined.

Lemma delete_then_get_witness :
  Utf8.encodable user_02 /\
  keys_sorted users /\
  exists db',
    delete users user_02 = Ok db' /\
    keys_sorted db' /\
    ~ has_key db' user_02 /\
    get false db' user_02 None = Ok None /\
    forall key', key' <> user_02 ->
                 get false db' key' None = get false users key' None.
Proof.
  split; [exact SampleFacts.user_02_encodable|].
  split; [exact SampleFacts.users_sorted|].
  exact (@delete_then_get pystr false users user_02 None
                          SampleFacts.user_02_encodable
                          SampleFacts.users_sorted).
Defined.

Lemma put_then_delete_witness :
  ~ has_key users user_99 /\
  put users user_99 bob = Ok (db_put users user_99 bob) /\
  delete (db_put users user_99 bob) user_99 = Ok users.
Proof.
  assert (H : ~ has_key users user_99)
    by (unfold has_key; simpl; intuition discriminate).
  split; [exact H|split; [reflexivity|]].
  exact (@put_then_delete pystr users user_99 bob _ H eq_refl).
Defined.

(** The batch of [test_batch_basic]. *)
Lemma write_last_op_wins_witness :
  keys_sorted (@nil (entry pystr)) /\
  exists db',
    write [] [BatchPut user_02 bob SampleFacts.user_02_encodable;
              BatchPut user_04 user_08_value user_04_encodable;
              BatchDelete user_02 SampleFacts.user_02_encodable] = Ok db' /\
    keys_sorted db' /\
    get false db' user_02 None
    = match last_op [BatchPut user_02 bob SampleFacts.user_02_encodable;
                     BatchPut user_04 user_08_value user_04_encodable;
                     BatchDelete user_02 SampleFacts.user_02_encodable]
                    user_02 with
      | None => get false [] user_02 None
      | Some None => Ok None
      | Some (Some v) => Ok (Some v)
      end.
Proof.
  assert (H : keys_sorted (@nil (entry pystr))) by constructor.
  split; [exact H|].
  exact (@write_last_op_wins pystr false _ [] user_02 None H).
Defined.

Lemma key_exist_stored_witness :
  keys_sorted users /\ In (user_02, bob) users /\
  may_exist_ok users user_02 (true, None) /\
  key_exist false users user_02 (true, None) = Ok (true, Some bob).
Proof.
  assert (H1 : In (user_02, bob) users)
    by (right; right; right; left; reflexivity).
  assert (H2 : may_exist_ok users user_02 (true, None))
    by (split; [exact SampleFacts.user_02_encodable
               |split; [reflexivity|discriminate]]).
  split; [exact SampleFacts.users_sorted|split; [exact H1|split]];
    [exact H2|].
  exact (@key_exist_stored pystr false users user_02 bob (true, None)
                           SampleFacts.users_sorted H1 H2).
Defined.

Lemma key_exist_absent_witness :
  ~ has_key users user_99 /\
  may_exist_ok users user_99 (true, None) /\
  key_exist false users user_99 (true, None)
  = Ok (fst (true, @None pystr) && negb false, None).
Proof.
  assert (H1 : ~ has_key users user_99)
    by (unfold has_key; simpl; intuition discriminate).
  assert (H2 : may_exist_ok users user_99 (true, None))
    by (split; [exact user_99_encodable|split; [reflexivity|discriminate]]).
  split; [exact H1|split; [exact H2|]].
  exact (@key_exist_absent pystr false users user_99 (true, None) H1 H2).
Defined.

Lemma encode_cursor_injective_witness :
  exists c,
    _encode_cursor user_02 = Ok c /\ _encode_cursor user_02 = Ok c /\
    user_02 = user_02.
Proof.
  eexists; split; [vm_compute; reflexivity|].
  split; [vm_compute; reflexivity|].
  eapply (@encode_cursor_injective user_02 user_02);
    vm_compute; reflexivity.
Defined.

Lemma encode_cursor_url_safe_witness :
  exists c,
    _encode_cursor user_02 = Ok c /\
    Forall (fun x => url_safe_char x = true) c /\
    (length c mod 4 = 0)%nat /\
    (c = [] <-> user_02 = []).
Proof.
  eexists; split; [vm_compute; reflexivity|].
  eapply (@encode_cursor_url_safe user_02); vm_compute; reflexivity.
Defined.

Lemma decode_cursor_truncated_witness :
  Forall (fun ch => url_safe_data_char ch = true) cut_cursor /\
  (length cut_cursor mod 4 <> 0)%nat /\
  _decode_cursor cut_cursor = Raise BinasciiError.
Proof.
  assert (H1 : Forall (fun ch => url_safe_data_char ch = true) cut_cursor)
    by (repeat constructor).
  assert (H2 : (length cut_cursor mod 4 <> 0)%nat) by discriminate.
  split; [exact H1|split; [exact H2|]].
  exact (@decode_cursor_truncated cut_cursor H1 H2).
Defined.

Lemma paginate_page_of_iter_witness :
  (0 <= 3 < sys_maxsize)%Z /\ keys_encodable users /\
  resume_start None None = Ok None /\
  iter users (Some user_prefix) None None true
  = Ok (rev (skipn 2 users)) /\
  exists r,
    paginate users 3 None true (Some user_prefix) None None true = Ok r /\
    page_items r = firstn (Z.to_nat 3) (rev (skipn 2 users)) /\
    has_more r = (3 <? Z.of_nat (length (rev (skipn 2 users))))%Z /\
    (has_more r = false -> next_cursor r = None) /\
    (has_more r = true ->
     forall k v, last_entry (page_items r) = Some (k, v) ->
                 exists c, _encode_cursor k = Ok c /\ next_cursor r = Some c).
Proof.
  assert (H1 : (0 <= 3 < sys_maxsize)%Z) by (unfold sys_maxsize; lia).
  assert (H2 : iter users (Some user_prefix) None None true
               = Ok (rev (skipn 2 users))) by (vm_compute; reflexivity).
  split; [exact H1|split; [exact SampleFacts.users_encodable|split]];
    [reflexivity|split; [exact H2|]].
  exact (@paginate_page_of_iter pystr users 3 None true (Some user_prefix)
                                None None true None _ H1
                                SampleFacts.users_encodable eq_refl H2).
Defined.

Lemma paginate_all_complete_witness :
  keys_sorted ten_users /\ keys_encodable ten_users /\
  prefix_covers (Some user_prefix) ten_users /\
  bound_ok (Some user_prefix) /\
  (1 <= 3)%nat /\ (Z.of_nat 3 < sys_maxsize)%Z /\
  ((2 <= 3)%nat \/ ~ has_key ten_users []) /\
  (1 <= 4)%nat /\ (length ten_users <= 4 * 3)%nat /\
  exists init lastp,
    paginate_all 4 ten_users (Z.of_nat 3) (Some user_prefix) None
    = Ok (init ++ [lastp]) /\
    concat (map (@page_items pystr) (init ++ [lastp])) = ten_users /\
    Forall (fun q => has_more q = true /\ next_cursor q <> None
                     /\ length (page_items q) = 3%nat) init /\
    has_more lastp = false /\
    next_cursor lastp = None.
Proof.
  assert (H0 : prefix_covers (Some user_prefix) ten_users).
  { split; [reflexivity|].
    assert (H : forallb (fun e => startswith (key_of e) user_prefix)
                        ten_users = true) by reflexivity.
    rewrite forallb_forall in H; apply Forall_forall; exact H. }
  assert (H1 : (1 <= 3)%nat) by lia.
  assert (Hm : (Z.of_nat 3 < sys_maxsize)%Z) by (unfold sys_maxsize; lia).
  assert (H2 : (2 <= 3)%nat \/ ~ has_key ten_users []) by (left; lia).
  assert (H3 : (1 <= 4)%nat) by lia.
  assert (H4 : (length ten_users <= 4 * 3)%nat) by (simpl; lia).
  split; [exact ten_users_sorted|split; [exact ten_users_encodable|]].
  split; [exact H0|split; [exact user_prefix_encodable|]].
  split; [exact H1|split; [exact Hm|split; [exact H2|]]].
  split; [exact H3|split; [exact H4|]].
  exact (@paginate_all_complete pystr ten_users 3 4 (Some user_prefix)
                                ten_users_sorted ten_users_encodable H0
                                user_prefix_encodable H1 Hm H2 H3 H4).
Defined.

Lemma paginate_empty_key_loops_witness :
  keys_sorted with_empty_key /\
  paginate_all 5 with_empty_key 1 None None
  = Ok (repeat {| page_items := firstn 1 with_empty_key; has_more := true;
                  next_cursor := Some []; prev_cursor := None |} 5).
Proof.
  assert (H : keys_sorted with_empty_key) by now apply keys_sortedb_sound.
  split; [exact H|].
  exact (@paginate_empty_key_loops pystr _ _ [] 5 H).
Defined.

Lemma paginate_reverse_stuck_witness :
  keys_sorted ten_users /\ keys_encodable ten_users /\
  rev ten_users
  = firstn 2 (rev ten_users) ++ (user_08, user_08_value)
    :: skipn 3 (rev ten_users) /\
  skipn 3 (rev ten_users) <> [] /\
  (Z.of_nat (S (length (firstn 2 (rev ten_users)))) < sys_maxsize)%Z /\
  exists r1 r2 c,
    paginate ten_users (Z.of_nat (S (length (firstn 2 (rev ten_users)))))
             None true None None None true = Ok r1 /\
    page_items r1 = firstn 2 (rev ten_users) ++ [(user_08, user_08_value)] /\
    has_more r1 = true /\
    next_cursor r1 = Some c /\
    paginate ten_users (Z.of_nat (S (length (firstn 2 (rev ten_users)))))
             (Some c) true None None None true = Ok r2 /\
    page_items r2 = firstn 2 (rev ten_users) /\
    has_more r2 = false /\
    next_cursor r2 = None.
Proof.
  assert (H1 : rev ten_users
               = firstn 2 (rev ten_users) ++ (user_08, user_08_value)
                 :: skipn 3 (rev ten_users)) by reflexivity.
  assert (H2 : skipn 3 (rev ten_users) <> []) by discriminate.
  assert (H3 : (Z.of_nat (S (length (firstn 2 (rev ten_users))))
                < sys_maxsize)%Z) by reflexivity.
  split; [exact ten_users_sorted|split; [exact ten_users_encodable|]].
  split; [exact H1|split; [exact H2|split; [exact H3|]]].
  exact (@paginate_reverse_stuck pystr ten_users _ _ user_08 user_08_value
                                 true ten_users_sorted ten_users_encodable
                                 H1 H2 H3).
Defined.

Lemma paginate_zero_witness :
  resume_start None None = Ok None /\
  iter users None None None false = Ok users /\
  exists r,
    paginate users 0 None true None None None false = Ok r /\
    page_items r = [] /\
    next_cursor r = None /\
    (has_more r = true <-> users <> []).
Proof.
  assert (H : iter users None None None false = Ok users)
    by (vm_compute; reflexivity).
  split; [reflexivity|split; [exact H|]].
  exact (@paginate_zero pystr users None true None None None false None
                        users eq_refl H).
Defined.

Lemma paginate_negative_witness :
  resume_start None None = Ok None /\
  (((-2) < -1)%Z ->
   paginate users (-2) None true None None None false
   = Raise ValueError) /\
  ((-2)%Z = (-1)%Z ->
   exists r,
     paginate users (-2) None true None None None false = Ok r /\
     page_items r = [] /\ has_more r = true /\ next_cursor r = None).
Proof.
  split; [reflexivity|].
  exact (@paginate_negative pystr users (-2) None true None None None false
                            None eq_refl).
Defined.

End MoreSampleFacts.
